(** * DarumaOtoshi2018: the barrier and level model of [Main.cpp]

    The game logic of [Main.cpp] lives in [struct Barrier] and [class Level]
    (lines 9-139) and in [Data::getScore] (lines 157-159).  Every number in
    it is a C++ [double].  Around it, [Data::anyKeyIsDown] and the scenes
    [Title], [Playing] and [GameOver] (lines 161-289) are embedded with the
    keys and the gamepad of a frame as input, with [std::sin], [std::cos]
    and [Math::Pi] as parameters, and with the scene a scene asks
    [changeScene] for as output; the score file of [Main] is embedded as
    the list of its bytes.  The code is embedded once, over an interface
    [Double] for the operations it applies to doubles, and the interface has
    two instances:

    - [binary64]: IEEE 754 binary64 with round-to-nearest-even, the
      arithmetic the program runs on (Rocq's primitive floats);
    - [exact]: the rationals, the arithmetic in which the specification
      writes its formulas.

    Properties of the control structure are proved for every instance.
    Concrete values are computed in [binary64].  Rounding is visible in
    [binary64] only; formulas over all inputs are proved in [exact], and
    in [binary64] as well where the rounding of each operation is followed
    (the cap of the height, the score, the passages).

    The random source of the framework ([Random], [RandomBool]) is a
    parameter: an oracle indexed by the number of calls made so far.

    [Main.cpp] holds two builds of the program, one after the other.  The
    line numbers are those of the first build (lines 1-330), which the
    definitions follow.  Drawing apart, [Barrier] and [Level] of the second
    build (from line 331) differ in one place: the vertical test of
    [Barrier::hit] is
    [yPos < planePosY && planePosY < yPos + height]. *)

From Stdlib Require Import ZArith QArith Qminmax Qround Lqa Lia List Bool Floats.
Import ListNotations.
Close Scope Q_scope.

Set Implicit Arguments.
#[local] Set Warnings "-inexact-float".

(** ** The operations on [double] the program uses *)

Declare Scope double_scope.
Delimit Scope double_scope with dbl.

Class Double (D : Type) : Type := {
  (** the value of a decimal literal such as [0.25] *)
  dec : Q -> D;
  dadd : D -> D -> D;
  dsub : D -> D -> D;
  dmul : D -> D -> D;
  ddiv : D -> D -> D;
  dopp : D -> D;
  (** [x < y] and [x <= y]; [x > y] is [y < x], [x >= y] is [y <= x] *)
  dltb : D -> D -> bool;
  dleb : D -> D -> bool;
  (** [x == y]; the program never compares doubles for equality, the
      properties do *)
  deqb : D -> D -> bool;
  (** [static_cast<int>(x)]: truncation toward zero, undefined outside the
      range of a 32-bit [int] *)
  to_int : D -> option Z
}.

Infix "+" := dadd : double_scope.
Infix "-" := dsub : double_scope.
Infix "*" := dmul : double_scope.
Infix "/" := ddiv : double_scope.
Notation "- x" := (dopp x) : double_scope.
Infix "<?" := dltb (at level 70, no associativity) : double_scope.
Infix "<=?" := dleb (at level 70, no associativity) : double_scope.
Infix "==?" := deqb (at level 70, no associativity) : double_scope.
Notation "x >? y" := (dltb y x) (at level 70, no associativity) : double_scope.

Definition INT_MIN : Z := - 2 ^ 31.
Definition INT_MAX : Z := 2 ^ 31 - 1.

Definition in_int_range (z : Z) : bool := ((INT_MIN <=? z) && (z <=? INT_MAX))%Z.

(** [std::min(a, b)] is [(b < a) ? b : a]. *)
Definition std_min {D} `{Double D} (a b : D) : D :=
  if (b <? a)%dbl then b else a.

(** An [int] operand of a [double] operation is converted to [double]. *)
Definition of_int {D} `{Double D} (z : Z) : D := dec (inject_Z z).

(** Arithmetic on [int] is undefined when it overflows. *)
Definition checked_int (z : Z) : option Z :=
  if in_int_range z then Some z else None.

(** *** IEEE 754 binary64 *)

Definition b64_of_Z (z : Z) : float :=
  match z with
  | Zneg p => PrimFloat.opp (PrimFloat.of_uint63 (Uint63.of_Z (Zpos p)))
  | _ => PrimFloat.of_uint63 (Uint63.of_Z z)
  end.

(** A decimal literal [n/d] with [n] and [d] below [2^53] denotes the
    double nearest to it, which the correctly rounded quotient of the two
    integers is. *)
Definition b64_dec (q : Q) : float :=
  PrimFloat.div (b64_of_Z (Qnum q)) (b64_of_Z (Zpos (Qden q))).

(** The integer part of a finite double, toward zero. *)
Definition SF_trunc (f : spec_float) : option Z :=
  match f with
  | S754_zero _ => Some 0%Z
  | S754_finite s m e =>
      let a := (if 0 <=? e then Zpos m * 2 ^ e else Z.quot (Zpos m) (2 ^ (- e)))%Z in
      Some (if s then (- a)%Z else a)
  | S754_infinity _ | S754_nan => None
  end.

(** The integer part of a finite double, toward minus infinity. *)
Definition SF_floor (f : spec_float) : option Z :=
  match f with
  | S754_zero _ => Some 0%Z
  | S754_finite s m e =>
      Some (if 0 <=? e then (if s then - (Zpos m * 2 ^ e) else Zpos m * 2 ^ e)
            else Z.div (if s then Zneg m else Zpos m) (2 ^ (- e)))%Z
  | S754_infinity _ | S754_nan => None
  end.

Definition b64_to_int (x : float) : option Z :=
  match SF_trunc (Prim2SF x) with
  | Some z => if in_int_range z then Some z else None
  | None => None
  end.

#[export] Instance binary64 : Double float := {
  dec := b64_dec;
  dadd := PrimFloat.add;
  dsub := PrimFloat.sub;
  dmul := PrimFloat.mul;
  ddiv := PrimFloat.div;
  dopp := PrimFloat.opp;
  dltb := PrimFloat.ltb;
  dleb := PrimFloat.leb;
  deqb := PrimFloat.eqb;
  to_int := b64_to_int
}.

(** *** Exact rational arithmetic *)

Definition Q_trunc (q : Q) : Z := Z.quot (Qnum q) (Zpos (Qden q)).

Definition Q_to_int (q : Q) : option Z :=
  if in_int_range (Q_trunc q) then Some (Q_trunc q) else None.

#[export] Instance exact : Double Q := {
  dec := fun q => q;
  dadd := Qplus;
  dsub := Qminus;
  dmul := Qmult;
  ddiv := Qdiv;
  dopp := Qopp;
  dltb := fun x y => negb (Qle_bool y x);
  dleb := Qle_bool;
  deqb := Qeq_bool;
  to_int := Q_to_int
}.

(** ** The constants of [Main.cpp], lines 3-7 *)

Section Constants.
Context {D : Type} `{Double D}.

Definition holeWidth : D := dec 0.25.
Definition barrierInterval : D := dec 0.5.
Definition initialBarrierHeight : D := dec 0.1.
Definition playerPosY : D := dec 0.2.
Definition sideWallWidth : D := dec 0.1.
End Constants.

(** ** [struct Barrier], lines 9-61 *)

Module Barrier.

(** [enum class Type] *)
Inductive Type_ : Set := Left | Right | Slit.

Section WithDouble.
Context {D : Type} `{Double D}.
Open Scope double_scope.

Record t : Type := Build {
  type : Type_;
  leftToHole : D;
  height : D;
  yPos : D
}.

Definition hit (b : t) (x : D) : bool :=
  if match type b with
     | Left => x >? leftToHole b
     | Right => x <? leftToHole b
     | Slit => (leftToHole b <? x) && (x <? leftToHole b + holeWidth)
     end
  then false
  else (yPos b <=? playerPosY) && (playerPosY <=? yPos b + height b).

Definition isVisible (b : t) : bool :=
  yPos b >? - height b.

(** [hit] in the second build of the program, lines 350-370: the same
    horizontal test; the height of the token ([planePosY], 0.2 as well)
    is compared strictly. *)
Definition hit_build2 (b : t) (x : D) : bool :=
  if match type b with
     | Left => x >? leftToHole b
     | Right => x <? leftToHole b
     | Slit => (leftToHole b <? x) && (x <? leftToHole b + holeWidth)
     end
  then false
  else (yPos b <? playerPosY) && (playerPosY <? yPos b + height b).

End WithDouble.

Arguments t D : clear implicits.

End Barrier.

(** ** The random source

    [Random(0.4, 0.6)], [RandomBool()] and [Random(0, 2)] belong to the
    framework.  The [k]-th call made by the program returns what the oracle
    holds at index [k]. *)

Record Oracle (D : Type) : Type := {
  Random_double : nat -> D;
  RandomBool : nat -> bool;
  Random_int : nat -> Z
}.

(** ** Computations that draw random numbers and may go wrong *)

Inductive outcome (A : Type) : Type :=
| Ok (a : A) (calls : nat)   (** result, and the number of draws made so far *)
| Fault                      (** undefined behaviour, or a draw outside its range *)
| OutOfFuel.                 (** the loop bound of the model was reached *)

Arguments Ok {A} a calls.
Arguments Fault {A}.
Arguments OutOfFuel {A}.

Definition M (A : Type) : Type := nat -> outcome A.

Definition ret {A} (a : A) : M A := fun k => Ok a k.

Definition bind {A B} (m : M A) (f : A -> M B) : M B :=
  fun k => match m k with
           | Ok a k' => f a k'
           | Fault => Fault
           | OutOfFuel => OutOfFuel
           end.

Definition fault {A} : M A := fun _ => Fault.
Definition out_of_fuel {A} : M A := fun _ => OutOfFuel.

(** One call to the random source. *)
Definition draw {A} (f : nat -> A) : M A := fun k => Ok (f k) (S k).

Definition lift {A} (o : option A) : M A :=
  match o with Some a => ret a | None => fault end.

Notation "x <- m ;; k" := (bind m (fun x => k))
  (at level 61, m at next level, right associativity).
Notation "' p <- m ;; k" := (bind m (fun x => let p := x in k))
  (at level 61, p pattern, m at next level, right associativity).

(** ** [std::deque] as a list, front first *)

Definition front {A} (q : list A) : option A := hd_error q.

Definition back {A} (q : list A) : option A :=
  match q with [] => None | a :: q' => Some (last q' a) end.

Definition pop_front {A} (q : list A) : option (list A) :=
  match q with [] => None | _ :: q' => Some q' end.

Definition emplace_back {A} (q : list A) (a : A) : list A := q ++ [a].

(** ** [class Level], lines 63-139 *)

Module Level.

Section WithDouble.
Context {D : Type} `{Double D}.
Variable rnd : Oracle D.
Open Scope double_scope.

Record t : Type := Build {
  barriers : list (Barrier.t D);
  mileage : D
}.

(** [Barrier::Type(k)] for the [k] that [Random(0, 2)] returns. *)
Definition Type_of_int (k : Z) : option Barrier.Type_ :=
  match k with
  | 0%Z => Some Barrier.Left
  | 1%Z => Some Barrier.Right
  | 2%Z => Some Barrier.Slit
  | _ => None
  end.

(** Lines 134-135. *)
Definition newHeight (mileage : D) : D :=
  let factor := std_min (mileage / dec 100.0) (dec 1.0) in
  initialBarrierHeight + factor * (dec 0.3 - initialBarrierHeight).

(** Lines 114-138. *)
Definition addBarrier (l : t) : M t :=
  pos <- draw (Random_double rnd) ;;
  prev <- lift (back (barriers l)) ;;
  '(type, leftToHole) <-
    match Barrier.type prev with
    | Barrier.Left =>
        c <- draw (RandomBool rnd) ;;
        ret (if c then Barrier.Right else Barrier.Slit, pos)
    | Barrier.Right =>
        c <- draw (RandomBool rnd) ;;
        ret (if c then Barrier.Left else Barrier.Slit, dec 1.0 - pos)
    | Barrier.Slit =>
        k <- draw (Random_int rnd) ;;
        ty <- lift (Type_of_int k) ;;
        ret (ty, pos - holeWidth / dec 2.0)
    end ;;
  let height := newHeight (mileage l) in
  ret {| barriers :=
           emplace_back (barriers l)
             (Barrier.Build type leftToHole height
                (Barrier.yPos prev + barrierInterval));
         mileage := mileage l |}.

(** The member initialiser of line 111 and [mileage(0.0)] of line 65. *)
Definition initial : t :=
  {| barriers :=
       [ Barrier.Build Barrier.Slit (dec 0.5 - holeWidth / dec 2.0)
           initialBarrierHeight (dec 1.0) ];
     mileage := dec 0.0 |}.

(** The loop of the constructor, lines 66-70. *)
Fixpoint fill (fuel : nat) (height : D) (l : t) : M t :=
  if height <? dec 1.0 then
    match fuel with
    | O => out_of_fuel
    | S fuel' =>
        l' <- addBarrier l ;;
        fill fuel' (height + barrierInterval) l'
    end
  else ret l.

(** [Level()], lines 65-71. *)
Definition new (fuel : nat) : M t := fill fuel (dec 0.0) initial.

(** Lines 73-83. *)
Definition update (speedY : D) (l : t) : M t :=
  let mileage' := mileage l + speedY in
  let shifted :=
    map (fun b => Barrier.Build (Barrier.type b) (Barrier.leftToHole b)
                    (Barrier.height b) (Barrier.yPos b - speedY))
        (barriers l) in
  first <- lift (front shifted) ;;
  if negb (Barrier.isVisible first) then
    rest <- lift (pop_front shifted) ;;
    addBarrier {| barriers := rest; mileage := mileage' |}
  else ret {| barriers := shifted; mileage := mileage' |}.

(** Lines 94-104. *)
Definition hit (l : t) (posX : D) : bool :=
  if (posX <? sideWallWidth) || (posX >? dec 1.0 - sideWallWidth) then true
  else existsb (fun b => Barrier.hit b posX) (barriers l).

Definition getMileage (l : t) : D := mileage l.

End WithDouble.

Arguments t D : clear implicits.

End Level.

(** ** [Data::getScore], lines 157-159 *)

Definition getScore {D} `{Double D} (level : Level.t D) : option Z :=
  to_int (Level.getMileage level * dec 5.0)%dbl.

(** ** [enum class Scene], lines 141-145 *)

Module Scene.
Inductive t : Set := Title | Playing | GameOver.
End Scene.

(** ** The input devices in one frame

    [KeyLeft.down()], [KeyRight.down()], [Key{InputDevice::Keyboard, i}.down()]
    for a code [i], and the gamepad of [Data::gamepad], if there is one,
    with the [down()] of its four directions and of its buttons.  A
    [KeyGroup] such as [povLeft | povRight] is down when one of its members
    is. *)

Record Gamepad : Type := {
  povLeft : bool;
  povRight : bool;
  povUp : bool;
  povDown : bool;
  buttons : list bool
}.

Record Input : Type := {
  KeyLeft : bool;
  KeyRight : bool;
  Key_Keyboard : Z -> bool;
  gamepad : option Gamepad
}.

(** The codes [KeyCancel.code()] and [KeyBackslash_JP.code()] of the
    framework, two [uint8]. *)
Record KeyCodes : Type := {
  KeyCancel : Z;
  KeyBackslash_JP : Z
}.

(** ** [struct Data], lines 147-179

    Of its fields the model keeps those the game logic reads or writes:
    [score] stays 0 and the fonts are for drawing only; of the stopwatch
    [sw] it keeps whether it runs. *)

Module Data.

Record t (D : Type) : Type := Build {
  highScore : Z;
  level : Level.t D;
  playerPosX : D;
  playerAngle : D;
  sw_running : bool
}.

(** The loop of lines 162-166, from [i] on.  [i] is a [uint8]: [++i]
    after 255 is 0.  [None]: the loop has not ended after [fuel] more
    rounds; [Some false]: it has ended without [return true]. *)
Fixpoint scan_keys (codes : KeyCodes) (inp : Input) (fuel : nat) (i : Z)
    : option bool :=
  if (i <=? KeyBackslash_JP codes)%Z then
    if Key_Keyboard inp i then Some true
    else match fuel with
         | O => None
         | S fuel' => scan_keys codes inp fuel' ((i + 1) mod 256)%Z
         end
  else Some false.

(** Lines 161-178. *)
Definition anyKeyIsDown (codes : KeyCodes) (inp : Input) (fuel : nat)
    : option bool :=
  match scan_keys codes inp fuel (KeyCancel codes) with
  | None => None
  | Some true => Some true
  | Some false =>
      match gamepad inp with
      | Some gp =>
          if povLeft gp || povRight gp || povUp gp || povDown gp then Some true
          else Some (existsb (fun button => button) (buttons gp))
      | None => Some false
      end
  end.

End Data.

(** ** [class Title], lines 183-199, and [class GameOver], lines 271-289

    [update] returns the scene it asks [changeScene] for, if any. *)

Module Title.

Definition update (codes : KeyCodes) (inp : Input) (fuel : nat)
    : option (option Scene.t) :=
  match Data.anyKeyIsDown codes inp fuel with
  | None => None
  | Some true => Some (Some Scene.Playing)
  | Some false => Some None
  end.

End Title.

Module GameOver.

Definition update (codes : KeyCodes) (inp : Input) (fuel : nat)
    : option (option Scene.t) :=
  match Data.anyKeyIsDown codes inp fuel with
  | None => None
  | Some true => Some (Some Scene.Playing)
  | Some false => Some None
  end.

End GameOver.

(** ** [class Playing], lines 212-269

    [std::sin], [std::cos] and [Math::Pi] are parameters. *)

Module Playing.

Section WithDouble.
Context {D : Type} `{Double D}.
Variable rnd : Oracle D.
Variables sin cos : D -> D.
Variable Pi : D.
Open Scope double_scope.

Record t : Type := Build {
  data : Data.t D;
  direction : Z;
  targetAngle : D
}.

(** Lines 214-219 and the member initialisers of lines 267-268. *)
Definition new (fuel : nat) (d : Data.t D) : M t :=
  level <- Level.new rnd fuel ;;
  ret {| data := {| Data.highScore := Data.highScore d;
                    Data.level := level;
                    Data.playerPosX := dec 0.5;
                    Data.playerAngle := dec 0.0;
                    Data.sw_running := true |};
         direction := 0;
         targetAngle := dec 0.0 |}.

Definition maxDirection : Z := 3.

(** Lines 236-238. *)
Definition angles : list D :=
  [dec 0.0; Pi / dec 6.0; Pi / dec 4.0; Pi / dec 3.0].

(** Lines 224-226. *)
Definition keyLeft (inp : Input) : bool :=
  KeyLeft inp
  || match gamepad inp with Some gp => povLeft gp | None => false end.

Definition keyRight (inp : Input) : bool :=
  KeyRight inp
  || match gamepad inp with Some gp => povRight gp | None => false end.

(** Lines 228-240: the new [direction] and [targetAngle].  [angles.at]
    throws for an index that is not below 4. *)
Definition steer (inp : Input) (direction : Z) (targetAngle : D)
    : M (Z * D) :=
  if xorb (keyLeft inp) (keyRight inp) then
    d1 <- (if keyLeft inp then
             d <- lift (checked_int (direction - 1)) ;;
             ret (Z.max d (- maxDirection))
           else ret direction) ;;
    d2 <- (if keyRight inp then
             d <- lift (checked_int (d1 + 1)) ;;
             ret (Z.min d maxDirection)
           else ret d1) ;;
    i <- lift (checked_int (Z.abs d2)) ;;
    angle <- lift (nth_error angles (Z.to_nat i)) ;;
    ret (d2, of_int (if (0 <? d2)%Z then 1 else -1) * angle)
  else ret (direction, targetAngle).

(** Lines 221-258.  The result holds the scene [update] asks
    [changeScene] for, if any. *)
Definition update (inp : Input) (s : t) : M (t * option Scene.t) :=
  '(direction', targetAngle') <- steer inp (direction s) (targetAngle s) ;;
  let d := data s in
  let playerAngle' :=
    Data.playerAngle d + dec 0.1 * (targetAngle' - Data.playerAngle d) in
  let speed := dec 5e-5 * Level.getMileage (Data.level d) + dec 5e-3 in
  let playerPosX' := Data.playerPosX d + sin playerAngle' * speed in
  if Level.hit (Data.level d) playerPosX' then
    ret ({| data := {| Data.highScore := Data.highScore d;
                       Data.level := Data.level d;
                       Data.playerPosX := playerPosX';
                       Data.playerAngle := playerAngle';
                       Data.sw_running := false |};
            direction := direction';
            targetAngle := targetAngle' |},
         Some Scene.GameOver)
  else
    level' <- Level.update rnd (cos playerAngle' * speed) (Data.level d) ;;
    score <- lift (getScore level') ;;
    ret ({| data := {| Data.highScore := Z.max score (Data.highScore d);
                       Data.level := level';
                       Data.playerPosX := playerPosX';
                       Data.playerAngle := playerAngle';
                       Data.sw_running := Data.sw_running d |};
            direction := direction';
            targetAngle := targetAngle' |},
         None).

End WithDouble.

Arguments t D : clear implicits.

End Playing.

(** ** The score file of [Main], lines 303-309 and 328-329

    [BinaryWriter::write(&highScore, sizeof(highScore))] stores the object
    representation of the [int], [BinaryReader::read(highScore)] loads it
    back and fails if the file holds fewer than [sizeof(int)] bytes.  The
    representation is four bytes, the least significant first, in two's
    complement.  A file is the list of its bytes, or [None] if
    [FileSystem::Exists] is false. *)

Module Main.

Definition bytes_of_int (z : Z) : list Z :=
  [ z mod 256; (z / 256) mod 256; (z / 65536) mod 256;
    (z / 16777216) mod 256 ]%Z.

Definition int_of_bytes (b0 b1 b2 b3 : Z) : Z :=
  let u := (b0 + 256 * b1 + 65536 * b2 + 16777216 * b3)%Z in
  if (u <? 2 ^ 31)%Z then u else (u - 2 ^ 32)%Z.

(** Lines 303-309; [highScore] is 0 before. *)
Definition load (scoreFile : option (list Z)) : Z :=
  match scoreFile with
  | Some (b0 :: b1 :: b2 :: b3 :: _) => int_of_bytes b0 b1 b2 b3
  | Some _ => 0
  | None => 0
  end.

(** Lines 328-329: the file after [Main]. *)
Definition save (highScore : Z) : option (list Z) :=
  Some (bytes_of_int highScore).

End Main.

(** ** Levels the program can reach

    A level is built by [Level()] and then only changed by [update].  The
    counter is the number of draws made when the level is in that state. *)

Section Reachable.
Context {D : Type} `{Double D}.
Variable rnd : Oracle D.

Inductive reachable : Level.t D -> nat -> Prop :=
| reach_new fuel k l k' :
    Level.new rnd fuel k = Ok l k' -> reachable l k'
| reach_update speedY l k l' k' :
    reachable l k -> Level.update rnd speedY l k = Ok l' k' ->
    reachable l' k'.

(** What the framework promises of its random source. *)
Definition in_contract : Prop :=
  forall k,
    (dec 0.4 <=? Random_double rnd k)%dbl = true /\
    (Random_double rnd k <=? dec 0.6)%dbl = true /\
    (0 <= Random_int rnd k <= 2)%Z.

End Reachable.

(** ** Vocabulary of the properties *)

(** Every pair of neighbours of the deque, front to back, is in [R]. *)
Definition consecutive {A} (R : A -> A -> Prop) (q : list A) : Prop :=
  forall i a b, nth_error q i = Some a -> nth_error q (S i) = Some b -> R a b.

Section Vocabulary.
Context {D : Type} `{Double D}.
Open Scope double_scope.

(** [next] may stand right behind [prev]: no Left after Left, no Right
    after Right. *)
Definition alternates (prev next : Barrier.t D) : Prop :=
  (Barrier.type prev = Barrier.Left -> Barrier.type next <> Barrier.Left) /\
  (Barrier.type prev = Barrier.Right -> Barrier.type next <> Barrier.Right).

(** The horizontal part of [Barrier.hit]: [x] is in the solid part of
    the row. *)
Definition solid (b : Barrier.t D) (x : D) : bool :=
  match Barrier.type b with
  | Barrier.Left => negb (x >? Barrier.leftToHole b)
  | Barrier.Right => negb (x <? Barrier.leftToHole b)
  | Barrier.Slit =>
      negb ((Barrier.leftToHole b <? x) &&
            (x <? Barrier.leftToHole b + holeWidth))
  end.

(** The vertical part of [Barrier.hit]: the band of the barrier covers
    the height of the token. *)
Definition overlaps (b : Barrier.t D) : bool :=
  (Barrier.yPos b <=? playerPosY) &&
  (playerPosY <=? Barrier.yPos b + Barrier.height b).

(** [update]'s loop over the barriers, lines 76-78. *)
Definition shift (speedY : D) (b : Barrier.t D) : Barrier.t D :=
  Barrier.Build (Barrier.type b) (Barrier.leftToHole b) (Barrier.height b)
    (Barrier.yPos b - speedY).

(** [next] was appended [barrierInterval] behind [prev], and both have
    been moved by the same steps since. *)
Inductive spaced : D -> D -> Prop :=
| spaced_new y : spaced y (y + barrierInterval)
| spaced_shift y y' speedY : spaced y y' -> spaced (y - speedY) (y' - speedY).

(** The token passes [b] at every [x] of the open interval (a, c), which
    lies between the side walls and is not empty: it holds a value of
    [double].  (Between two neighbouring doubles there is none.) *)
Definition passage (b : Barrier.t D) (a c : D) : Prop :=
  (a <? c) = true /\
  (exists x, (a <? x) = true /\ (x <? c) = true) /\
  (sideWallWidth <=? a) = true /\
  (c <=? dec 1.0 - sideWallWidth) = true /\
  forall x, (a <? x) = true -> (x <? c) = true -> solid b x = false.

(** The centre band, [0.4 - holeWidth/2 .. 0.6 + holeWidth/2]. *)
Definition in_center (x : D) : Prop :=
  (dec 0.4 - holeWidth / dec 2.0 <=? x) = true /\
  (x <=? dec 0.6 + holeWidth / dec 2.0) = true.

(** [b] has a passage that intersects the centre band. *)
Definition solvable (b : Barrier.t D) : Prop :=
  exists a c, passage b a c /\
    exists x, (a <? x) = true /\ (x <? c) = true /\ in_center x.

(** The gap between two neighbours is [barrierInterval], compared as
    [==] compares doubles. *)
Definition exactly_spaced (prev next : Barrier.t D) : Prop :=
  (Barrier.yPos next - Barrier.yPos prev ==? barrierInterval) = true.

End Vocabulary.

Section Choice.
Context {D : Type} `{Double D}.
Variable rnd : Oracle D.
Open Scope double_scope.

(** The type [addBarrier] gives the new barrier, by the type of the one
    at the back and the draws at [k] and [k+1]. *)
Inductive chosen (k : nat) : Barrier.Type_ -> Barrier.Type_ -> D -> Prop :=
| chosen_Left :
    chosen k Barrier.Left
      (if RandomBool rnd (S k) then Barrier.Right else Barrier.Slit)
      (Random_double rnd k)
| chosen_Right :
    chosen k Barrier.Right
      (if RandomBool rnd (S k) then Barrier.Left else Barrier.Slit)
      (dec 1.0 - Random_double rnd k)
| chosen_Slit ty :
    Level.Type_of_int (Random_int rnd (S k)) = Some ty ->
    chosen k Barrier.Slit ty (Random_double rnd k - holeWidth / dec 2.0).

End Choice.



(** A double that is not negative (or not a number). *)
Definition nonneg_SF (f : spec_float) : Prop :=
  match f with
  | S754_zero _ | S754_infinity false | S754_nan => True
  | S754_finite s _ _ => s = false
  | S754_infinity true => False
  end.

(** A double that is at least 1. *)
Definition ge_one (f : spec_float) : Prop :=
  match f with
  | S754_infinity false => True
  | S754_finite false m e => (-52 < e \/ (e = -52 /\ 2 ^ 52 <= Z.pos m))%Z
  | _ => False
  end.

(** The place of a double in the order of the doubles: sign class, then
    exponent, then mantissa, compared from left to right; NaN has none. *)
Section Order.
Local Open Scope Z_scope.

Definition key (f : spec_float) : option (Z * Z * Z) :=
  match f with
  | S754_nan => None
  | S754_infinity true => Some (-2, 0, 0)
  | S754_infinity false => Some (2, 0, 0)
  | S754_zero _ => Some (0, 0, 0)
  | S754_finite true m e => Some (-1, - e, Z.neg m)
  | S754_finite false m e => Some (1, e, Z.pos m)
  end.

Definition lex (a b : Z * Z * Z) : comparison :=
  match fst (fst a) ?= fst (fst b) with
  | Eq => match snd (fst a) ?= snd (fst b) with
          | Eq => snd a ?= snd b
          | c => c
          end
  | c => c
  end.

Definition lt3 (a b : Z * Z * Z) : Prop :=
  fst (fst a) < fst (fst b) \/
  (fst (fst a) = fst (fst b) /\
   (snd (fst a) < snd (fst b) \/
    (snd (fst a) = snd (fst b) /\ snd a < snd b))).

Definition le3 (a b : Z * Z * Z) : Prop := lt3 a b \/ a = b.

Definition fkey (x : float) : option (Z * Z * Z) := key (Prim2SF x).

End Order.

(** ** Vocabulary of the properties of whole runs *)

(** One [update] for each step of a list, in order. *)
Fixpoint update_each {D} `{Double D} (rnd : Oracle D) (speeds : list D)
    (l : Level.t D) : M (Level.t D) :=
  match speeds with
  | [] => ret l
  | speedY :: rest =>
      l' <- Level.update rnd speedY l ;; update_each rnd rest l'
  end.

(** The range of [leftToHole]: from [0.4 - holeWidth / 2] to [0.6]. *)
Definition leftToHole_in_range {D} `{Double D} (b : Barrier.t D) : Prop :=
  (dec 0.4 - holeWidth / dec 2.0 <=? Barrier.leftToHole b)%dbl = true /\
  (Barrier.leftToHole b <=? dec 0.6)%dbl = true.

(** ** Sample runs, for the instances of the theorems *)

Definition rnd64 : Oracle float :=
  {| Random_double := fun _ => dec 0.5;
     RandomBool := fun _ => true;
     Random_int := fun _ => 0%Z |}.

Definition rndQ : Oracle Q :=
  {| Random_double := fun _ => dec 0.5;
     RandomBool := fun _ => true;
     Random_int := fun _ => 0%Z |}.

(** A source whose draws are [Random(0.4, 0.6) = 0.4] and
    [Random(0, 2) = 1]. *)
Definition rnd_edge {D : Type} `{Double D} : Oracle D :=
  {| Random_double := fun _ => dec 0.4;
     RandomBool := fun _ => true;
     Random_int := fun _ => 1%Z |}.

(** The level a computation ends with, [Level.initial] if it has none. *)
Definition level_of {D} `{Double D} (o : outcome (Level.t D)) : Level.t D :=
  match o with Ok l _ => l | _ => Level.initial end.

(** [Level()] with the draws of [rnd64], and the same after the first tick
    of a game: the token starts with direction 0, so [Playing::update]
    calls [level.update(cos(0) * (5e-5 * 0 + 5e-3))], that is
    [update(0.005)]. *)
Definition fresh64 : Level.t float := level_of (Level.new rnd64 2 0).

Definition tick64 : Level.t float :=
  level_of (Level.update rnd64 (dec 0.005) fresh64 4).

Definition freshQ : Level.t Q := level_of (Level.new rndQ 2 0).


(** The barrier [addBarrier] appends to the initial level with the draws
    of [rnd_edge]: a Right barrier behind the initial Slit. *)
Definition edge64 : Barrier.t float :=
  Barrier.Build Barrier.Right (dec 0.4 - holeWidth / dec 2.0)%dbl
    (Level.newHeight (dec 0.0)) (dec 1.0 + barrierInterval)%dbl.

(** A fresh level after one step of length 60: the barrier appended by
    this [update] is generated at mileage 60. *)
Definition jump64 : Level.t float :=
  level_of (Level.update rnd64 (dec 60.0) fresh64 4).

(** A fresh level after one step backwards. *)
Definition back64 : Level.t float :=
  level_of (Level.update rnd64 (- dec 0.1)%dbl fresh64 4).

(** A Slit whose band covers the height of the token. *)
Definition slit64 : Barrier.t float :=
  Barrier.Build Barrier.Slit (dec 0.375) (dec 0.1) (dec 0.15).

(** A fresh level after one step of length 0.85, in exact arithmetic: the
    initial Slit is at the height of the token. *)
Definition deepQ : Level.t Q :=
  level_of (Level.update rndQ (dec 0.85) freshQ 4).

(** Sample frames of [Playing::update].  [sin] and [cos] are not part of
    the arithmetic modelled here; the samples run with their values at
    angle 0, which is the angle of the token in these frames. *)
Definition sin_at_0 {D} `{Double D} (_ : D) : D := dec 0.0.
Definition cos_at_0 {D} `{Double D} (_ : D) : D := dec 1.0.

Definition no_keys : Input :=
  {| KeyLeft := false; KeyRight := false;
     Key_Keyboard := fun _ => false; gamepad := None |}.

Definition left_key : Input :=
  {| KeyLeft := true; KeyRight := false;
     Key_Keyboard := fun i => (i =? 37)%Z; gamepad := None |}.

(** The state of a game that has just begun, on [fresh64], and after its
    first frame. *)
Definition start64 : Playing.t float :=
  {| Playing.data :=
       {| Data.highScore := 0; Data.level := fresh64;
          Data.playerPosX := dec 0.5; Data.playerAngle := dec 0.0;
          Data.sw_running := true |};
     Playing.direction := 0;
     Playing.targetAngle := dec 0.0 |}.

(** A game in exact arithmetic with the token at 0.2 and the initial Slit
    at its height. *)
Definition crashQ : Playing.t Q :=
  {| Playing.data :=
       {| Data.highScore := 0; Data.level := deepQ;
          Data.playerPosX := dec 0.2; Data.playerAngle := dec 0.0;
          Data.sw_running := true |};
     Playing.direction := 0;
     Playing.targetAngle := dec 0.0 |}.

(** Key codes for the samples: 3 and 226. *)
Definition sample_codes : KeyCodes :=
  {| KeyCancel := 3; KeyBackslash_JP := 226 |}.

(** * Proofs *)

(** ** The monad *)

Lemma bind_Ok A B (m : M A) (f : A -> M B) k b k' :
  bind m f k = Ok b k' ->
  exists a k1, m k = Ok a k1 /\ f a k1 = Ok b k'.
Proof.
  unfold bind. destruct (m k) as [a k1| |]; try discriminate.
  intros E. exists a, k1. split; [reflexivity | exact E].
Qed.

Lemma lift_Ok A (o : option A) k a k' :
  lift o k = Ok a k' -> o = Some a /\ k' = k.
Proof.
  destruct o as [x|]; cbn; [|discriminate].
  unfold ret. intros E. injection E as -> ->. split; reflexivity.
Qed.

Lemma draw_Ok A (f : nat -> A) k a k' :
  draw f k = Ok a k' -> a = f k /\ k' = S k.
Proof. unfold draw. intros E. injection E as <- <-. split; reflexivity. Qed.

Lemma ret_Ok A (x : A) k a k' : ret x k = Ok a k' -> a = x /\ k' = k.
Proof. unfold ret. intros E. injection E as <- <-. split; reflexivity. Qed.

Ltac inv_run :=
  repeat match goal with
  | E : bind _ _ _ = Ok _ _ |- _ =>
      let a := fresh "a" in let k := fresh "k" in
      let E1 := fresh "E" in let E2 := fresh "E" in
      apply bind_Ok in E; destruct E as (a & k & E1 & E2)
  | E : lift _ _ = Ok _ _ |- _ =>
      let E1 := fresh "E" in apply lift_Ok in E; destruct E as (E1 & ->)
  | E : draw _ _ = Ok _ _ |- _ => apply draw_Ok in E; destruct E as (-> & ->)
  | E : ret _ _ = Ok ?a _ |- _ =>
      is_var a; apply ret_Ok in E; destruct E as (-> & ->)
  end.

(** ** The deque *)

Lemma back_snoc A (q : list A) (a : A) : back (q ++ [a]) = Some a.
Proof.
  destruct q as [|x q]; cbn; [reflexivity|].
  f_equal. apply last_last.
Qed.

Lemma last_cons A (q : list A) (x d : A) : last (x :: q) d = last q x.
Proof.
  revert x d. induction q as [|y q IH]; intros x d; [reflexivity|].
  change (last (x :: y :: q) d) with (last (y :: q) d).
  rewrite (IH y d), (IH y x). reflexivity.
Qed.

Lemma back_nth A (q : list A) (a : A) :
  back q = Some a -> nth_error q (length q - 1) = Some a.
Proof.
  destruct q as [|x q]; cbn [back]; [discriminate|].
  intros E. injection E as <-. cbn [length]. rewrite Nat.sub_succ, Nat.sub_0_r.
  revert x. induction q as [|y q IH]; intros x; [reflexivity|].
  rewrite last_cons. exact (IH y).
Qed.

Lemma back_some A (q : list A) : q <> [] -> exists a, back q = Some a.
Proof. destruct q as [|x q]; [congruence|]. intros _. eexists. reflexivity. Qed.

Lemma consecutive_nil A (R : A -> A -> Prop) : consecutive R [].
Proof. intros [|i] a b E; discriminate. Qed.

Lemma consecutive_one A (R : A -> A -> Prop) x : consecutive R [x].
Proof. intros [|[|i]] a b E1 E2; discriminate. Qed.

Lemma consecutive_tail A (R : A -> A -> Prop) x q :
  consecutive R (x :: q) -> consecutive R q.
Proof. intros C i a b E1 E2. exact (C (S i) a b E1 E2). Qed.

Lemma consecutive_snoc A (R : A -> A -> Prop) q x :
  consecutive R q ->
  (forall a, back q = Some a -> R a x) ->
  consecutive R (q ++ [x]).
Proof.
  intros C B i a b E1 E2.
  destruct (Nat.lt_ge_cases (S i) (length q)) as [L|L].
  - rewrite nth_error_app1 in E1 by lia. rewrite nth_error_app1 in E2 by lia.
    exact (C i a b E1 E2).
  - assert (S i = length q) as E.
    { apply Nat.le_antisymm; [|exact L].
      assert (S i < length (q ++ [x])) as L'
        by (apply nth_error_Some; congruence).
      rewrite length_app in L'. cbn in L'. lia. }
    rewrite nth_error_app1 in E1 by lia.
    rewrite nth_error_app2 in E2 by lia.
    replace (S i - length q) with 0 in E2 by lia. cbn in E2.
    injection E2 as <-. apply B.
    destruct q as [|y q]; [discriminate|].
    destruct (back_some (q := y :: q)) as (z & Z); [discriminate|].
    rewrite Z. f_equal. apply back_nth in Z.
    replace (length (y :: q) - 1) with i in Z by (cbn in *; lia). congruence.
Qed.

Lemma consecutive_map A B (f : A -> B) (R : A -> A -> Prop) (R' : B -> B -> Prop) q :
  (forall a b, R a b -> R' (f a) (f b)) ->
  consecutive R q -> consecutive R' (map f q).
Proof.
  intros F C i a b E1 E2.
  rewrite nth_error_map in E1, E2.
  destruct (nth_error q i) as [a0|] eqn:N1; [|discriminate].
  destruct (nth_error q (S i)) as [b0|] eqn:N2; [|discriminate].
  cbn in E1, E2. injection E1 as <-. injection E2 as <-.
  apply F. exact (C i a0 b0 N1 N2).
Qed.

(** ** What one call of [addBarrier] and of [update] does *)

Section Steps.
Context {D : Type} `{Double D}.
Variable rnd : Oracle D.
Open Scope double_scope.

Lemma addBarrier_Ok l k l' k' :
  Level.addBarrier rnd l k = Ok l' k' ->
  exists prev ty lth,
    back (Level.barriers l) = Some prev /\
    chosen rnd k (Barrier.type prev) ty lth /\
    l' = Level.Build
           (Level.barriers l ++
              [Barrier.Build ty lth (Level.newHeight (Level.mileage l))
                 (Barrier.yPos prev + barrierInterval)])
           (Level.mileage l) /\
    k' = S (S k).
Proof.
  unfold Level.addBarrier. intros E. inv_run.
  destruct a1 as [ty lth]. inv_run.
  exists a0, ty, lth. split; [assumption|].
  assert (chosen rnd k (Barrier.type a0) ty lth /\ k2 = S (S k)) as [C ->].
  { destruct (Barrier.type a0); inv_run;
      match goal with E : ret _ _ = Ok _ _ |- _ =>
        unfold ret in E; injection E as <- <- <- end;
      (split; [constructor; try assumption | reflexivity]). }
  repeat split. exact C.
Qed.

Lemma update_Ok speedY l k l' k' :
  Level.update rnd speedY l k = Ok l' k' ->
  exists first rest,
    map (shift speedY) (Level.barriers l) = first :: rest /\
    ((Barrier.isVisible first = true /\
      l' = Level.Build (first :: rest) (Level.mileage l + speedY) /\
      k' = k) \/
     (Barrier.isVisible first = false /\
      Level.addBarrier rnd
        (Level.Build rest (Level.mileage l + speedY)) k = Ok l' k')).
Proof.
  unfold Level.update. intros E. inv_run.
  change (map _ (Level.barriers l)) with (map (shift speedY) (Level.barriers l)) in *.
  destruct (map (shift speedY) (Level.barriers l)) as [|first rest] eqn:S;
    [discriminate|].
  cbn in E. injection E as <-. exists first, rest. split; [reflexivity|].
  destruct (Barrier.isVisible first); cbn [negb] in E1.
  - left. inv_run. repeat split; reflexivity.
  - right. inv_run.
    match goal with E : pop_front _ = Some _ |- _ => cbn in E; injection E as <- end.
    split; [reflexivity | assumption].
Qed.

(** A property of levels that [addBarrier], the shift and [pop_front]
    preserve holds of every reachable level. *)
Section Invariant.
Variable P : Level.t D -> Prop.
Hypothesis P_initial : P (Level.initial (D := D)).
Hypothesis P_add :
  forall l k l' k', P l -> Level.addBarrier rnd l k = Ok l' k' -> P l'.
Hypothesis P_shift :
  forall l speedY,
    P l ->
    P (Level.Build (map (shift speedY) (Level.barriers l))
         (Level.mileage l + speedY)).
Hypothesis P_pop :
  forall first rest m, P (Level.Build (first :: rest) m) ->
                       P (Level.Build rest m).

Lemma fill_inv fuel : forall height l k l' k',
  P l -> Level.fill rnd fuel height l k = Ok l' k' -> P l'.
Proof.
  induction fuel as [|fuel IH]; intros height l k l' k' Pl E; cbn in E;
    destruct (height <? dec 1.0).
  - discriminate.
  - inv_run. assumption.
  - inv_run. eapply IH; [|eassumption]. eapply P_add; eassumption.
  - inv_run. assumption.
Qed.

Lemma update_inv speedY l k l' k' :
  P l -> Level.update rnd speedY l k = Ok l' k' -> P l'.
Proof.
  intros Pl E. apply update_Ok in E.
  destruct E as (first & rest & S & [(_ & -> & _) | (_ & E)]).
  - rewrite <- S. apply P_shift. exact Pl.
  - eapply P_add; [|exact E]. apply P_pop with first.
    rewrite <- S. apply P_shift. exact Pl.
Qed.

Lemma reachable_inv l k : reachable rnd l k -> P l.
Proof.
  induction 1 as [fuel k l k' E | speedY l k l' k' _ IH E].
  - eapply fill_inv; [exact P_initial | exact E].
  - eapply update_inv; eassumption.
Qed.
End Invariant.

End Steps.

(** ** Sample runs *)

Lemma fresh64_reachable : reachable rnd64 fresh64 4.
Proof. apply (@reach_new _ _ rnd64 2 0). vm_compute. reflexivity. Qed.

Lemma tick64_reachable : reachable rnd64 tick64 4.
Proof.
  apply (@reach_update _ _ rnd64 (dec 0.005) _ 4 _ _ fresh64_reachable).
  vm_compute. reflexivity.
Qed.

Lemma freshQ_reachable : reachable rndQ freshQ 4.
Proof. apply (@reach_new _ _ rndQ 2 0). vm_compute. reflexivity. Qed.

(** ** Alternation of the barrier types *)

Section Alternation.
Context {D : Type} `{Double D}.
Variable rnd : Oracle D.

Lemma chosen_alternates k (prev next : Barrier.t D) lth :
  chosen rnd k (Barrier.type prev) (Barrier.type next) lth ->
  alternates prev next.
Proof.
  unfold alternates. intros C.
  destruct C; split; intros P; try discriminate P;
    destruct (RandomBool rnd (S k)); discriminate.
Qed.

Lemma addBarrier_alternates l k l' k' :
  Level.addBarrier rnd l k = Ok l' k' ->
  exists prev next,
    back (Level.barriers l) = Some prev /\
    Level.barriers l' = emplace_back (Level.barriers l) next /\
    alternates prev next.
Proof.
  intros E. apply addBarrier_Ok in E.
  destruct E as (prev & ty & lth & B & C & -> & _).
  eexists prev, _. split; [exact B|]. split; [reflexivity|].
  eapply chosen_alternates. exact C.
Qed.

Lemma reachable_alternates l k :
  reachable rnd l k -> consecutive alternates (Level.barriers l).
Proof.
  apply reachable_inv with
    (P := fun l => consecutive alternates (Level.barriers l)).
  - apply consecutive_one.
  - intros l0 k0 l' k' C E. apply addBarrier_alternates in E.
    destruct E as (prev & next & B & -> & A).
    apply consecutive_snoc; [exact C|].
    intros a Ba. rewrite B in Ba. injection Ba as <-. exact A.
  - intros l0 speedY C. cbn.
    apply consecutive_map with (R := alternates); [|exact C].
    intros a b A. exact A.
  - intros first rest m C. exact (consecutive_tail C).
Qed.

End Alternation.

(** A draw after which [addBarrier] appends a Slit, whatever stands at the
    back. *)
Lemma slit_may_follow D `{Double D} (l : Level.t D) prev :
  back (Level.barriers l) = Some prev ->
  exists rnd l' k',
    Level.addBarrier rnd l 0 = Ok l' k' /\
    exists next, back (Level.barriers l') = Some next /\
                 Barrier.type next = Barrier.Slit.
Proof.
  intros B.
  exists {| Random_double := fun _ => dec 0.5;
            RandomBool := fun _ => false;
            Random_int := fun _ => 2%Z |}.
  unfold Level.addBarrier, bind, draw, lift. rewrite B. cbn.
  destruct (Barrier.type prev); cbn;
    eexists _, _; (split; [reflexivity|]); cbn;
    unfold emplace_back; rewrite back_snoc; eexists; split; reflexivity.
Qed.

(** C1.  Alternation invariant: in every reachable level no Left barrier
    is immediately followed, front to back, by a Left one and no Right
    barrier by a Right one; equivalently [addBarrier] never appends a Left
    behind a Left nor a Right behind a Right; and a Slit may follow a
    barrier of any type.  Proved for every arithmetic of [double] and every
    random source. *)
Theorem C1_alternation D `{Double D} (rnd : Oracle D) :
  (forall l k, reachable rnd l k ->
     consecutive alternates (Level.barriers l)) /\
  (forall l k l' k', Level.addBarrier rnd l k = Ok l' k' ->
     exists prev next,
       back (Level.barriers l) = Some prev /\
       Level.barriers l' = emplace_back (Level.barriers l) next /\
       (Barrier.type prev = Barrier.Left ->
        Barrier.type next <> Barrier.Left) /\
       (Barrier.type prev = Barrier.Right ->
        Barrier.type next <> Barrier.Right)) /\
  (forall (l : Level.t D) prev, back (Level.barriers l) = Some prev ->
     exists rnd' l' k',
       Level.addBarrier rnd' l 0 = Ok l' k' /\
       exists next, back (Level.barriers l') = Some next /\
                    Barrier.type next = Barrier.Slit).
Proof.
  split; [|split].
  - apply reachable_alternates.
  - intros l k l' k' E. apply addBarrier_alternates in E.
    destruct E as (prev & next & B & E & A1 & A2).
    exists prev, next. repeat split; assumption.
  - apply slit_may_follow.
Qed.

Lemma C1_alternation_witness :
  reachable rnd64 tick64 4 /\ consecutive alternates (Level.barriers tick64).
Proof.
  split; [exact tick64_reachable|].
  exact (proj1 (C1_alternation rnd64) tick64 4 tick64_reachable).
Defined.

(** ** Collision tests *)

Section Collision.
Context {D : Type} `{Double D}.
Open Scope double_scope.

Lemma Barrier_hit_solid (b : Barrier.t D) x :
  Barrier.hit b x = solid b x && overlaps b.
Proof.
  unfold Barrier.hit, solid, overlaps.
  destruct (Barrier.type b);
    match goal with |- (if ?c then _ else _) = _ => destruct c end;
    reflexivity.
Qed.

Lemma Level_hit_iff (l : Level.t D) posX :
  Level.hit l posX = true <->
  ((posX <? sideWallWidth) = true \/
   (posX >? dec 1.0 - sideWallWidth) = true) \/
  exists b, In b (Level.barriers l) /\ Barrier.hit b posX = true.
Proof.
  unfold Level.hit.
  destruct (posX <? sideWallWidth) eqn:L; cbn [orb].
  - split; [intros _; left; left; reflexivity | reflexivity].
  - destruct (posX >? dec 1.0 - sideWallWidth) eqn:R.
    + split; [intros _; left; right; reflexivity | reflexivity].
    + rewrite existsb_exists. split.
      * intros E. right. exact E.
      * intros [[E|E]|E]; [discriminate | discriminate | exact E].
Qed.

End Collision.

(** C3.  A Slit barrier lets every [x] of the open interval
    (leftToHole, leftToHole + holeWidth) through whatever its vertical
    position; for every other [x], [hit] is true exactly when the band of
    the barrier covers the height of the token,
    [yPos <= playerPosY <= yPos + height]; [holeWidth] is 0.25 and
    [playerPosY] is 0.2.  Proved for every arithmetic of [double]. *)
Theorem C3_slit_hit D `{Double D} (b : Barrier.t D) (x : D) :
  Barrier.type b = Barrier.Slit ->
  (((Barrier.leftToHole b <? x) = true /\
    (x <? Barrier.leftToHole b + holeWidth) = true ->
    Barrier.hit b x = false) /\
   (~ ((Barrier.leftToHole b <? x) = true /\
       (x <? Barrier.leftToHole b + holeWidth) = true) ->
    (Barrier.hit b x = true <->
     (Barrier.yPos b <=? playerPosY) = true /\
     (playerPosY <=? Barrier.yPos b + Barrier.height b) = true)) /\
   holeWidth = dec 0.25 :> D /\
   playerPosY = dec 0.2 :> D)%dbl.
Proof.
  intros T. unfold Barrier.hit. rewrite T.
  split; [|split; [|split; reflexivity]].
  - intros [-> ->]. reflexivity.
  - intros N.
    destruct (Barrier.leftToHole b <? x)%dbl eqn:E1;
      destruct (x <? Barrier.leftToHole b + holeWidth)%dbl eqn:E2; cbn [andb];
      try (exfalso; apply N; split; reflexivity);
      apply andb_true_iff.
Qed.

Lemma C3_slit_hit_witness :
  Barrier.type slit64 = Barrier.Slit /\
  Barrier.hit slit64 (dec 0.5) = false /\
  Barrier.hit slit64 (dec 0.3) = true.
Proof.
  split; [reflexivity|]. split.
  - apply (proj1 (C3_slit_hit slit64 (dec 0.5) eq_refl)).
    vm_compute. split; reflexivity.
  - apply (proj1 (proj2 (C3_slit_hit slit64 (dec 0.3) eq_refl))).
    + vm_compute. intros [E _]. discriminate E.
    + vm_compute. split; reflexivity.
Defined.

(** C2.  [Level.hit(posX)] is true if and only if [posX] is below
    [sideWallWidth] or above [1 - sideWallWidth], or some barrier of the
    level reports a hit (every arithmetic of [double]); the two bounds are
    the doubles 0.1 and 0.9, so that every [posX < 0.1] and every
    [posX > 0.9] hits, whatever the barriers are. *)
Theorem C2_level_hit :
  (forall D (ops : Double D) (l : Level.t D) (posX : D),
     Level.hit l posX = true <->
     ((posX <? sideWallWidth) = true \/
      (posX >? dec 1.0 - sideWallWidth) = true)%dbl \/
     exists b, In b (Level.barriers l) /\ Barrier.hit b posX = true) /\
  (forall (l : Level.t float) (posX : float),
     (posX <? 0.1)%float = true \/ (0.9 <? posX)%float = true ->
     Level.hit l posX = true) /\
  (forall (l : Level.t Q) (posX : Q),
     (posX < 0.1)%Q \/ (0.9 < posX)%Q ->
     Level.hit l posX = true).
Proof.
  split; [|split].
  - intros D ops l posX. apply Level_hit_iff.
  - intros l posX W. apply Level_hit_iff. left. exact W.
  - intros l posX W. apply Level_hit_iff. left.
    cbn. rewrite !negb_true_iff.
    destruct W as [W|W]; [left|right];
      (destruct (Qle_bool _ _) eqn:E; [|reflexivity]);
      apply Qle_bool_imp_le in E; cbn in E; unfold sideWallWidth in E; cbn in E; lra.
Qed.

Lemma C2_level_hit_witness :
  Level.hit fresh64 (dec 0.05) = true /\ Level.hit fresh64 (dec 0.95) = true.
Proof.
  split.
  - apply (proj1 (proj2 C2_level_hit) fresh64 (dec 0.05)).
    left. vm_compute. reflexivity.
  - apply (proj1 (proj2 C2_level_hit) fresh64 (dec 0.95)).
    right. vm_compute. reflexivity.
Defined.

(** ** The constructor and the number of barriers *)

Section Totality.
Context {D : Type} `{Double D}.
Variable rnd : Oracle D.
Hypothesis int_in_range : forall k, (0 <= Random_int rnd k <= 2)%Z.

Lemma Type_of_int_total k : exists ty, Level.Type_of_int (Random_int rnd k) = Some ty.
Proof.
  destruct (int_in_range k) as [L U].
  assert (Random_int rnd k = 0 \/ Random_int rnd k = 1 \/ Random_int rnd k = 2)%Z
    as [-> | [-> | ->]] by lia; eexists; reflexivity.
Qed.

Lemma addBarrier_total (l : Level.t D) k :
  Level.barriers l <> [] ->
  exists l', Level.addBarrier rnd l k = Ok l' (S (S k)).
Proof.
  intros N. destruct (back_some N) as (prev & B).
  unfold Level.addBarrier, bind, draw, lift. rewrite B. cbn.
  destruct (Barrier.type prev); cbn; try (eexists; reflexivity).
  destruct (Type_of_int_total (S k)) as (ty & ->). cbn.
  eexists; reflexivity.
Qed.

Lemma update_total speedY (l : Level.t D) k :
  (2 <= length (Level.barriers l))%nat ->
  exists l' k', Level.update rnd speedY l k = Ok l' k'.
Proof.
  intros L. unfold Level.update.
  destruct (Level.barriers l) as [|b1 [|b2 q]]; cbn in L; try lia.
  cbn [map front hd_error lift]. unfold bind at 1. unfold ret at 1.
  destruct (Barrier.isVisible _); cbn [negb].
  - eexists _, _. reflexivity.
  - cbn [pop_front lift]. unfold bind, ret.
    destruct (addBarrier_total
                (Level.Build (shift speedY b2 :: map (shift speedY) q)
                   (dadd (Level.mileage l) speedY)) k) as (l' & E);
      [discriminate|].
    exists l', (S (S k)). exact E.
Qed.

End Totality.

Section Fresh.
Context {D : Type} `{Double D}.
Variable rnd : Oracle D.
Open Scope double_scope.

(** The three tests [height < 1.0] the constructor makes. *)
Hypothesis loop0 : (@dec D _ 0.0 <? dec 1.0) = true.
Hypothesis loop1 : (@dec D _ 0.0 + barrierInterval <? dec 1.0) = true.
Hypothesis loop2 :
  (@dec D _ 0.0 + barrierInterval + barrierInterval <? dec 1.0) = false.

Lemma new_Ok fuel k l k' :
  Level.new rnd fuel k = Ok l k' ->
  exists l1,
    Level.addBarrier rnd Level.initial k = Ok l1 (S (S k)) /\
    Level.addBarrier rnd l1 (S (S k)) = Ok l k' /\
    k' = (4 + k)%nat.
Proof.
  unfold Level.new. intros E.
  destruct fuel as [|[|fuel]]; cbn [Level.fill] in E; rewrite loop0 in E;
    try discriminate E; inv_run.
  - rewrite loop1 in E1.
    pose proof (addBarrier_Ok _ _ _ E0) as (_ & _ & _ & _ & _ & _ & ->).
    discriminate E1.
  - rewrite loop1 in E1. inv_run.
    pose proof (addBarrier_Ok _ _ _ E0) as (_ & _ & _ & _ & _ & _ & ->).
    pose proof (addBarrier_Ok _ _ _ E) as (_ & _ & _ & _ & _ & _ & ->).
    assert (k' = 4 + k)%nat as ->.
    { destruct fuel; cbn [Level.fill] in E2; rewrite loop2 in E2;
        inv_run; reflexivity. }
    exists a. repeat split; try assumption.
    destruct fuel; cbn [Level.fill] in E2; rewrite loop2 in E2;
      unfold ret in E2; injection E2 as <-; exact E.
Qed.

Lemma new_total fuel k :
  (forall j, (0 <= Random_int rnd j <= 2)%Z) ->
  (2 <= fuel)%nat ->
  exists l, Level.new rnd fuel k = Ok l (4 + k)%nat.
Proof.
  intros R F. destruct fuel as [|[|fuel]]; try lia.
  destruct (@addBarrier_total _ _ rnd R Level.initial k) as (l1 & E1);
    [discriminate|].
  assert (Level.barriers l1 <> []) as N1.
  { apply addBarrier_Ok in E1. destruct E1 as (p & ty & lth & _ & _ & -> & _).
    cbn. discriminate. }
  destruct (@addBarrier_total _ _ rnd R l1 (S (S k)) N1) as (l2 & E2).
  exists l2. unfold Level.new. cbn [Level.fill]. rewrite loop0.
  unfold bind at 1. rewrite E1. rewrite loop1.
  unfold bind at 1. rewrite E2.
  destruct fuel; cbn [Level.fill]; rewrite loop2; reflexivity.
Qed.

(** The barriers of a fresh level: the initial Slit and two more, each
    [barrierInterval] behind the one before. *)
Lemma new_barriers fuel k l k' :
  Level.new rnd fuel k = Ok l k' ->
  Level.mileage l = dec 0.0 /\
  exists ty1 lth1 ty2 lth2,
    Level.barriers l =
      [ Barrier.Build Barrier.Slit (dec 0.5 - holeWidth / dec 2.0)
          initialBarrierHeight (dec 1.0);
        Barrier.Build ty1 lth1 (Level.newHeight (dec 0.0))
          (dec 1.0 + barrierInterval);
        Barrier.Build ty2 lth2 (Level.newHeight (dec 0.0))
          (dec 1.0 + barrierInterval + barrierInterval) ].
Proof.
  intros E. apply new_Ok in E. destruct E as (l1 & E1 & E2 & _).
  apply addBarrier_Ok in E1. destruct E1 as (p1 & ty1 & lth1 & B1 & _ & -> & _).
  cbn in B1. injection B1 as <-.
  apply addBarrier_Ok in E2. destruct E2 as (p2 & ty2 & lth2 & B2 & _ & -> & _).
  cbn in B2. injection B2 as <-. cbn.
  split; [reflexivity|]. exists ty1, lth1, ty2, lth2. reflexivity.
Qed.

End Fresh.

Section Count.
Context {D : Type} `{Double D}.
Variable rnd : Oracle D.

(** [update] removes the front barrier and appends one, or does neither. *)
Lemma update_barriers speedY l k l' k' :
  Level.update rnd speedY l k = Ok l' k' ->
  Level.barriers l' = map (shift speedY) (Level.barriers l) \/
  exists first rest b,
    map (shift speedY) (Level.barriers l) = first :: rest /\
    Level.barriers l' = rest ++ [b].
Proof.
  intros E. apply update_Ok in E.
  destruct E as (first & rest & S & [(_ & -> & _) | (_ & E)]).
  - left. rewrite S. reflexivity.
  - right. apply addBarrier_Ok in E.
    destruct E as (p & ty & lth & _ & _ & -> & _).
    exists first, rest. eexists. split; [exact S | reflexivity].
Qed.

Lemma update_length speedY l k l' k' :
  Level.update rnd speedY l k = Ok l' k' ->
  length (Level.barriers l') = length (Level.barriers l).
Proof.
  intros E. apply update_barriers in E.
  destruct E as [-> | (first & rest & b & S & ->)].
  - apply length_map.
  - rewrite <- (length_map (shift speedY) (Level.barriers l)), S, length_app.
    cbn. lia.
Qed.

Lemma reachable_length n :
  (forall fuel k l k', Level.new rnd fuel k = Ok l k' ->
                       length (Level.barriers l) = n) ->
  forall l k, reachable rnd l k -> length (Level.barriers l) = n.
Proof.
  intros N l k R. induction R as [fuel k l k' E | speedY l k l' k' _ IH E].
  - exact (N _ _ _ _ E).
  - rewrite (update_length _ _ _ E). exact IH.
Qed.

End Count.

Lemma loop0_64 : (@dec float _ 0.0 <? dec 1.0)%dbl = true.
Proof. vm_compute. reflexivity. Qed.

Lemma loop1_64 : (@dec float _ 0.0 + barrierInterval <? dec 1.0)%dbl = true.
Proof. vm_compute. reflexivity. Qed.

Lemma loop2_64 :
  (@dec float _ 0.0 + barrierInterval + barrierInterval <? dec 1.0)%dbl = false.
Proof. vm_compute. reflexivity. Qed.

Lemma loop0_Q : (@dec Q _ 0.0 <? dec 1.0)%dbl = true.
Proof. vm_compute. reflexivity. Qed.

Lemma loop1_Q : (@dec Q _ 0.0 + barrierInterval <? dec 1.0)%dbl = true.
Proof. vm_compute. reflexivity. Qed.

Lemma loop2_Q :
  (@dec Q _ 0.0 + barrierInterval + barrierInterval <? dec 1.0)%dbl = false.
Proof. vm_compute. reflexivity. Qed.

Lemma new64_length (rnd : Oracle float) fuel k l k' :
  Level.new rnd fuel k = Ok l k' -> length (Level.barriers l) = 3.
Proof.
  intros E. apply (@new_barriers _ _ rnd loop0_64 loop1_64 loop2_64) in E.
  destruct E as (_ & ty1 & lth1 & ty2 & lth2 & ->). reflexivity.
Qed.

(** C7.  In the arithmetic of the program, [Level()] returns (two
    iterations of its loop are enough) a level with mileage 0 and at least
    two barriers, whose front barrier is the initial centred Slit:
    [yPos = 1.0], [height = 0.1] and
    [leftToHole = 0.5 - holeWidth / 2 = 0.375]. *)
Theorem C7_fresh_level (rnd : Oracle float) (fuel k : nat) :
  (forall j, (0 <= Random_int rnd j <= 2)%Z) ->
  2 <= fuel ->
  exists l,
    Level.new rnd fuel k = Ok l (4 + k) /\
    Level.mileage l = 0%float /\
    2 <= length (Level.barriers l) /\
    exists b,
      front (Level.barriers l) = Some b /\
      Barrier.type b = Barrier.Slit /\
      Barrier.yPos b = 1%float /\
      Barrier.height b = 0.1%float /\
      Barrier.leftToHole b = (dec 0.5 - holeWidth / dec 2.0)%dbl /\
      Barrier.leftToHole b = 0.375%float.
Proof.
  intros R F.
  destruct (@new_total _ _ rnd loop0_64 loop1_64 loop2_64 fuel k R F) as (l & E).
  exists l. split; [exact E|].
  apply (@new_barriers _ _ rnd loop0_64 loop1_64 loop2_64) in E.
  destruct E as (M & ty1 & lth1 & ty2 & lth2 & B).
  rewrite M, B. split; [reflexivity|]. split; [cbn; lia|].
  eexists. split; [reflexivity|]. cbn. repeat split; reflexivity.
Qed.

Lemma C7_fresh_level_witness :
  exists l,
    Level.new rnd64 2 0 = Ok l 4 /\
    Level.mileage l = 0%float /\
    2 <= length (Level.barriers l) /\
    exists b,
      front (Level.barriers l) = Some b /\
      Barrier.type b = Barrier.Slit /\
      Barrier.yPos b = 1%float /\
      Barrier.height b = 0.1%float /\
      Barrier.leftToHole b = (dec 0.5 - holeWidth / dec 2.0)%dbl /\
      Barrier.leftToHole b = 0.375%float.
Proof.
  apply (C7_fresh_level rnd64 (fuel := 2) 0).
  - intros j. cbn. lia.
  - lia.
Defined.

(** C10.  In the arithmetic of the program a fresh level holds exactly
    three barriers (its loop runs twice); [update] keeps the number of
    barriers, as it either only shifts them or removes the front one and
    appends one; so every reachable level holds exactly three barriers and
    is never empty.  With a random source in its range, [Level()] and
    [update] on a reachable level always return. *)
Theorem C10_three_barriers (rnd : Oracle float) :
  (forall fuel k l k', Level.new rnd fuel k = Ok l k' ->
     length (Level.barriers l) = 3) /\
  (forall speedY l k l' k', Level.update rnd speedY l k = Ok l' k' ->
     length (Level.barriers l') = length (Level.barriers l) /\
     (Level.barriers l' = map (shift speedY) (Level.barriers l) \/
      exists first rest b,
        map (shift speedY) (Level.barriers l) = first :: rest /\
        Level.barriers l' = rest ++ [b])) /\
  (forall l k, reachable rnd l k ->
     length (Level.barriers l) = 3 /\ Level.barriers l <> []) /\
  ((forall j, (0 <= Random_int rnd j <= 2)%Z) ->
   (forall fuel k, 2 <= fuel -> exists l, Level.new rnd fuel k = Ok l (4 + k)) /\
   (forall l k, reachable rnd l k ->
      forall speedY, exists l' k', Level.update rnd speedY l k = Ok l' k')).
Proof.
  assert (forall l k, reachable rnd l k -> length (Level.barriers l) = 3) as L3.
  { apply reachable_length. apply new64_length. }
  split; [|split; [|split]].
  - apply new64_length.
  - intros speedY l k l' k' E. split.
    + eapply update_length; exact E.
    + eapply update_barriers; exact E.
  - intros l k R. pose proof (L3 l k R) as L. split; [exact L|].
    intros N. rewrite N in L. discriminate L.
  - intros C. split.
    + intros fuel k F.
      exact (@new_total _ _ rnd loop0_64 loop1_64 loop2_64 fuel k C F).
    + intros l k R speedY. apply update_total; [exact C|].
      rewrite (L3 l k R). lia.
Qed.

Lemma C10_three_barriers_witness :
  reachable rnd64 tick64 4 /\ length (Level.barriers tick64) = 3.
Proof.
  split; [exact tick64_reachable|].
  exact (proj1 (proj1 (proj2 (proj2 (C10_three_barriers rnd64)))
                  tick64 4 tick64_reachable)).
Defined.

(** ** Spacing of the barriers *)

Section Spacing.
Context {D : Type} `{Double D}.
Variable rnd : Oracle D.

Lemma reachable_spaced l k :
  reachable rnd l k ->
  consecutive (fun p n => spaced (Barrier.yPos p) (Barrier.yPos n))
    (Level.barriers l).
Proof.
  apply reachable_inv with
    (P := fun l => consecutive
                     (fun p n => spaced (Barrier.yPos p) (Barrier.yPos n))
                     (Level.barriers l)).
  - apply consecutive_one.
  - intros l0 k0 l' k' C E. apply addBarrier_Ok in E.
    destruct E as (prev & ty & lth & B & _ & -> & _). cbn.
    apply consecutive_snoc; [exact C|].
    intros a Ba. rewrite B in Ba. injection Ba as <-. cbn. apply spaced_new.
  - intros l0 speedY C. cbn.
    eapply consecutive_map; [|exact C].
    intros a b S. cbn. apply spaced_shift. exact S.
  - intros first rest m C. exact (consecutive_tail C).
Qed.

End Spacing.

(** In exact arithmetic the common shifts cancel. *)
Lemma spaced_exact (y y' : Q) : spaced y y' -> (y' - y == 0.5)%Q.
Proof.
  induction 1 as [y | y y' speedY _ IH]; cbn in *.
  - unfold barrierInterval. cbn. ring.
  - rewrite <- IH. ring.
Qed.

Lemma consecutive_impl A (R R' : A -> A -> Prop) q :
  (forall a b, R a b -> R' a b) -> consecutive R q -> consecutive R' q.
Proof. intros I C i a b E1 E2. apply I. exact (C i a b E1 E2). Qed.

(** C4, as the claim states it, fails in the arithmetic of the program:
    after the first tick of a game, [update(0.005)] on a fresh level, the
    gap between the first two barriers is [0.50000000000000011]. *)
Lemma C4_spacing_counterexample :
  reachable rnd64 tick64 4 /\
  (exists prev next,
     nth_error (Level.barriers tick64) 0 = Some prev /\
     nth_error (Level.barriers tick64) 1 = Some next /\
     (Barrier.yPos next - Barrier.yPos prev)%dbl = 0.50000000000000011%float) /\
  ~ consecutive exactly_spaced (Level.barriers tick64).
Proof.
  split; [exact tick64_reachable|]. split.
  - eexists _, _. split; [reflexivity|]. split; [reflexivity|].
    vm_compute. reflexivity.
  - intros C.
    assert (exists p n, nth_error (Level.barriers tick64) 0 = Some p /\
                        nth_error (Level.barriers tick64) 1 = Some n)
      as (p & n & E0 & E1) by (eexists _, _; split; reflexivity).
    pose proof (C 0 p n E0 E1) as X.
    vm_compute in E0, E1. injection E0 as <-. injection E1 as <-.
    vm_compute in X. discriminate X.
Qed.

(** C4, amended.  Every barrier is appended [barrierInterval] behind the
    one at the back, and every [update] subtracts the same [speedY] from
    both neighbours of a pair (every arithmetic of [double]).  In exact
    arithmetic the gap [next.yPos - prev.yPos] therefore equals
    [barrierInterval] = 0.5 in every reachable level.  In the arithmetic of
    the program it is exactly 0.5 in a fresh level; afterwards each
    subtraction rounds on its own. *)
Theorem C4_spacing :
  (forall D (ops : Double D) (rnd : Oracle D) l k,
     reachable rnd l k ->
     consecutive (fun p n => spaced (Barrier.yPos p) (Barrier.yPos n))
       (Level.barriers l)) /\
  (forall (rnd : Oracle Q) l k,
     reachable rnd l k ->
     consecutive
       (fun p n => (Barrier.yPos n - Barrier.yPos p == 0.5)%Q /\
                   exactly_spaced p n)
       (Level.barriers l)) /\
  (forall (rnd : Oracle float) fuel k l k',
     Level.new rnd fuel k = Ok l k' ->
     consecutive exactly_spaced (Level.barriers l)).
Proof.
  split; [|split].
  - intros D ops rnd l k. apply reachable_spaced.
  - intros rnd l k R. apply reachable_spaced in R.
    revert R. apply consecutive_impl. intros p n S.
    apply spaced_exact in S. split; [exact S|].
    unfold exactly_spaced. cbn. apply Qeq_bool_iff. exact S.
  - intros rnd fuel k l k' E.
    apply (@new_barriers _ _ rnd loop0_64 loop1_64 loop2_64) in E.
    destruct E as (_ & ty1 & lth1 & ty2 & lth2 & ->).
    intros [|[|[|i]]] a b E1 E2; try discriminate E2;
      cbn in E1, E2; injection E1 as <-; injection E2 as <-;
      vm_compute; reflexivity.
Qed.

Lemma C4_spacing_witness :
  reachable rndQ freshQ 4 /\
  consecutive
    (fun p n => (Barrier.yPos n - Barrier.yPos p == 0.5)%Q /\
                exactly_spaced p n)
    (Level.barriers freshQ).
Proof.
  split; [exact freshQ_reachable|].
  exact (proj1 (proj2 C4_spacing) rndQ freshQ 4 freshQ_reachable).
Defined.

(** ** The height of a new barrier *)

Lemma addBarrier_height D `{Double D} (rnd : Oracle D) l k l' k' :
  Level.addBarrier rnd l k = Ok l' k' ->
  exists b, back (Level.barriers l') = Some b /\
            Barrier.height b = Level.newHeight (Level.mileage l).
Proof.
  intros E. apply addBarrier_Ok in E.
  destruct E as (prev & ty & lth & _ & _ & -> & _).
  eexists. cbn. rewrite back_snoc. split; reflexivity.
Qed.

Lemma Qdiv_100 (m : Q) : (m / 100.0 == m * (1 # 100))%Q.
Proof.
  unfold Qdiv. assert (/ 100.0 == 1 # 100)%Q as -> by reflexivity. reflexivity.
Qed.

Lemma Qdiv_100' (m : Q) : (m / 100 == m * (1 # 100))%Q.
Proof.
  unfold Qdiv. assert (/ 100 == 1 # 100)%Q as -> by reflexivity. reflexivity.
Qed.

Lemma std_min_exact (a b : Q) :
  (a <= b -> std_min a b = a)%Q /\ (b < a -> std_min a b = b)%Q.
Proof.
  unfold std_min. cbn. split; intros L.
  - apply Qle_bool_iff in L. rewrite L. reflexivity.
  - destruct (Qle_bool a b) eqn:E; [|reflexivity].
    apply Qle_bool_iff in E. lra.
Qed.

Lemma newHeight_exact (m : Q) :
  ((m <= 100 -> Level.newHeight m == 0.1 + m * (1 # 100) * 0.2) /\
   (100 <= m -> Level.newHeight m == 0.3))%Q.
Proof.
  unfold Level.newHeight, initialBarrierHeight. cbn.
  pose proof (Qdiv_100 m) as E.
  destruct (std_min_exact (m / 100.0) 1.0) as [A B].
  split; intros L.
  - rewrite A by (rewrite E; lra). rewrite E. lra.
  - destruct (Qlt_le_dec 100 m) as [L'|L'].
    + rewrite B by (rewrite E; lra). lra.
    + rewrite A by (rewrite E; lra). rewrite E. lra.
Qed.

Lemma newHeight_formula (m : Q) :
  (Level.newHeight m == 0.1 + Qmin (m / 100) 1 * 0.2)%Q.
Proof.
  pose proof (Qdiv_100' m) as E.
  destruct (newHeight_exact m) as [A B].
  destruct (Qlt_le_dec 100 m) as [L|L].
  - rewrite B by lra. rewrite Q.min_r by (rewrite E; lra). lra.
  - rewrite A by lra. rewrite Q.min_l by (rewrite E; lra). rewrite E. lra.
Qed.

Lemma newHeight_mono (m m' : Q) :
  (m <= m' -> Level.newHeight m <= Level.newHeight m')%Q.
Proof.
  intros L.
  destruct (newHeight_exact m) as [A B], (newHeight_exact m') as [A' B'].
  destruct (Qlt_le_dec 100 m) as [M|M]; destruct (Qlt_le_dec 100 m') as [M'|M'].
  - rewrite B, B' by lra. lra.
  - lra.
  - rewrite A, B' by lra. lra.
  - rewrite A, A' by lra. lra.
Qed.

Lemma newHeight_increasing (m m' : Q) :
  (m < m' /\ m' <= 100 -> Level.newHeight m < Level.newHeight m')%Q.
Proof.
  intros [L U].
  destruct (newHeight_exact m) as [A _], (newHeight_exact m') as [A' _].
  rewrite A, A' by lra. lra.
Qed.

(** ** Division by 100 in binary64

    A double that is at least 100 has a quotient by 100 that is at least 1:
    the quotient [SFdiv] computes has 53 or 54 digits, and rounding it to
    53 digits does not take it below [2^52]. *)

Section Div100.
Local Open Scope Z_scope.
Unset Implicit Arguments.

Lemma digits2_bounds (p : positive) :
  2 ^ (Z.pos (digits2_pos p) - 1) <= Z.pos p < 2 ^ Z.pos (digits2_pos p).
Proof.
  induction p as [p IH | p IH |]; cbn [digits2_pos].
  - rewrite Pos2Z.inj_succ.
    replace (Z.succ (Z.pos (digits2_pos p)) - 1) with (Z.succ (Z.pos (digits2_pos p) - 1)) by lia.
    rewrite !Z.pow_succ_r by lia. lia.
  - rewrite Pos2Z.inj_succ.
    replace (Z.succ (Z.pos (digits2_pos p)) - 1) with (Z.succ (Z.pos (digits2_pos p) - 1)) by lia.
    rewrite !Z.pow_succ_r by lia. lia.
  - cbn. lia.
Qed.

Lemma digits2_unique (p : positive) (d : Z) :
  2 ^ (d - 1) <= Z.pos p < 2 ^ d -> 1 <= d -> Z.pos (digits2_pos p) = d.
Proof.
  intros [L U] D. pose proof (digits2_bounds p) as [L' U'].
  set (n := Z.pos (digits2_pos p)) in *.
  assert (1 <= n) by (unfold n; lia).
  destruct (Z.lt_trichotomy n d) as [Lt | [E | Gt]]; [exfalso | exact E | exfalso].
  - assert (2 ^ n <= 2 ^ (d - 1)) by (apply Z.pow_le_mono_r; lia). lia.
  - assert (2 ^ d <= 2 ^ (n - 1)) by (apply Z.pow_le_mono_r; lia). lia.
Qed.

Lemma ge_one_leb (f : spec_float) :
  ge_one f -> SFleb (S754_finite false 4503599627370496 (-52)) f = true.
Proof.
  destruct f as [s | [|] | | [|] m e]; cbn [ge_one]; try contradiction;
    try reflexivity.
  unfold SFleb, SFcompare. intros [L | [-> L]].
  - destruct (Z.compare_spec (-52) e) as [E | E | E]; first [reflexivity | lia].
  - cbn [Z.compare Pos.compare]. rewrite Pos.compare_refl.
    rewrite Pos.compare_cont_spec. cbn [Pos.switch_Eq].
    destruct (Pos.compare_spec 4503599627370496 m) as [E | E | E];
      try reflexivity.
    exfalso. apply Pos2Z.pos_lt_pos in E.
    change (2 ^ 52) with 4503599627370496 in L. lia.
Qed.

Lemma shr_fexp_53 (q : positive) (e : Z) (l : location) :
  2 ^ 52 <= Z.pos q < 2 ^ 53 -> -1074 <= e ->
  shr_fexp 53 1024 (Z.pos q) e l = (shr_record_of_loc (Z.pos q) l, e).
Proof.
  intros Q E. unfold shr_fexp, fexp, SpecFloat.emin. cbn [Zdigits2].
  rewrite (digits2_unique q 53) by (cbn; lia).
  replace (Z.max (53 + e - 53) (3 - 1024 - 53) - e) with 0 by lia.
  reflexivity.
Qed.

Lemma shr_fexp_54 (q : positive) (e : Z) (l : location) :
  2 ^ 53 <= Z.pos q < 2 ^ 54 -> -1075 <= e ->
  shr_fexp 53 1024 (Z.pos q) e l
  = (shr_1 (shr_record_of_loc (Z.pos q) l), e + 1).
Proof.
  intros Q E. unfold shr_fexp, fexp, SpecFloat.emin. cbn [Zdigits2].
  rewrite (digits2_unique q 54) by (cbn; lia).
  replace (Z.max (54 + e - 53) (3 - 1024 - 53) - e) with 1 by lia.
  reflexivity.
Qed.

Lemma shr_m_of_loc (m : Z) (l : location) : shr_m (shr_record_of_loc m l) = m.
Proof. destruct l as [|[| |]]; reflexivity. Qed.

Lemma shr_1_bounds (q : positive) (l : location) :
  2 ^ 53 <= Z.pos q < 2 ^ 54 ->
  2 ^ 52 <= shr_m (shr_1 (shr_record_of_loc (Z.pos q) l)) < 2 ^ 53.
Proof.
  intros Q. destruct l as [|[| |]], q as [p | p |]; cbn in *; lia.
Qed.

Lemma round_bounds (m : Z) (l : location) :
  m <= round_nearest_even m l <= m + 1.
Proof.
  destruct l as [|[| |]]; cbn; try lia. destruct (Z.even m); lia.
Qed.

(** The second normalisation and the final test of [binary_round_aux]. *)
Lemma second_stage (r e : Z) :
  2 ^ 52 <= r <= 2 ^ 53 -> -52 <= e ->
  ge_one
    (let '(mrs'', e'') := shr_fexp 53 1024 r e loc_Exact in
     match shr_m mrs'' with
     | 0 => S754_zero false
     | Z.pos m =>
         if e'' <=? 1024 - 53 then S754_finite false m e''
         else S754_infinity false
     | Z.neg _ => S754_nan
     end).
Proof.
  intros R E. destruct r as [| r | r]; try (cbn in R; lia).
  destruct (Z.eq_dec (Z.pos r) (2 ^ 53)) as [T | T].
  - rewrite shr_fexp_54 by (cbn in *; lia).
    change (2 ^ 53) with 9007199254740992 in T. injection T as ->.
    cbn [shr_record_of_loc shr_1 shr_m].
    destruct (e + 1 <=? 1024 - 53); cbn [ge_one]; [|trivial].
    left. lia.
  - rewrite shr_fexp_53 by (cbn in *; lia).
    rewrite shr_m_of_loc.
    destruct (e <=? 1024 - 53); cbn [ge_one]; [|trivial].
    destruct (Z.eq_dec e (-52)) as [-> | N]; [right; split; lia | left; lia].
Qed.

Lemma round_aux_ge (q : positive) (e : Z) (l : location) :
  2 ^ 52 <= Z.pos q < 2 ^ 54 ->
  (Z.pos q < 2 ^ 53 -> -52 <= e) ->
  -53 <= e ->
  ge_one (binary_round_aux 53 1024 false (Z.pos q) e l).
Proof.
  intros Q E1 E2. unfold binary_round_aux.
  destruct (Z_lt_le_dec (Z.pos q) (2 ^ 53)) as [S | S].
  - rewrite shr_fexp_53 by lia. rewrite shr_m_of_loc.
    apply second_stage; [|auto].
    pose proof (round_bounds (Z.pos q)
                  (loc_of_shr_record (shr_record_of_loc (Z.pos q) l))). lia.
  - rewrite shr_fexp_54 by lia.
    apply second_stage; [|lia].
    pose proof (shr_1_bounds q l ltac:(lia)) as B.
    pose proof (round_bounds (shr_m (shr_1 (shr_record_of_loc (Z.pos q) l)))
                  (loc_of_shr_record (shr_1 (shr_record_of_loc (Z.pos q) l)))).
    lia.
Qed.

Lemma SFdiv_100_ge_one (mx : positive) (ex : Z) :
  2 ^ 52 <= Z.pos mx < 2 ^ 53 ->
  -46 <= ex ->
  (ex = -46 -> 7036874417766400 <= Z.pos mx) ->
  ge_one (SFdiv 53 1024 (S754_finite false mx ex)
            (S754_finite false 7036874417766400 (-46))).
Proof.
  intros M E EM. unfold SFdiv, SFdiv_core_binary. cbn [xorb Zdigits2].
  rewrite (digits2_unique mx 53) by (cbn; lia).
  change (Z.pos (digits2_pos 7036874417766400)) with 53.
  replace (Z.min (fexp 53 1024 (53 + ex - (53 + -46))) (ex - -46))
    with (ex - 7) by (unfold fexp, SpecFloat.emin; lia).
  replace (ex - -46 - (ex - 7)) with 53 by lia.
  rewrite Z.shiftl_mul_pow2 by lia.
  pose proof (Z_div_mod (Z.pos mx * 2 ^ 53) 7036874417766400 ltac:(lia)) as DM.
  destruct (Z.div_eucl (Z.pos mx * 2 ^ 53) 7036874417766400) as [q r].
  destruct DM as [DE DR].
  assert (2 ^ 52 <= q < 2 ^ 54) as Q by lia.
  destruct q as [| q | q]; try lia.
  apply round_aux_ge; [exact Q | | lia].
  intros S. assert (ex <> -46) by (intros X; specialize (EM X); lia). lia.
Qed.

Lemma b64_div_100_ge_one (m : float) :
  (100 <=? m)%float = true -> (1 <=? m / 100)%float = true.
Proof.
  rewrite !leb_spec, div_spec.
  change (Prim2SF 100) with (S754_finite false 7036874417766400 (-46)).
  change (Prim2SF 1) with (S754_finite false 4503599627370496 (-52)).
  pose proof (Prim2SF_valid m) as V.
  destruct (Prim2SF m) as [s | [|] | | [|] mx ex]; try discriminate;
    try reflexivity.
  unfold SFleb, SFcompare. intros L.
  apply ge_one_leb.
  cbn [SpecFloat.valid_binary] in V. unfold bounded, canonical_mantissa in V.
  apply andb_true_iff in V. destruct V as [C B].
  apply Z.eqb_eq in C. apply Z.leb_le in B.
  unfold fexp, SpecFloat.emin, prec, emax in C. unfold prec, emax in B.
  assert (-46 <= ex /\ (ex = -46 -> 7036874417766400 <= Z.pos mx)) as [E EM].
  { destruct (Z.compare_spec (-46) ex) as [X | X | X]; try discriminate L.
    - subst ex. split; [lia|]. intros _.
      rewrite Pos.compare_cont_spec in L. cbn [Pos.switch_Eq] in L.
      destruct (Pos.compare_spec 7036874417766400 mx) as [Y | Y | Y];
        try discriminate L.
      + subst mx. lia.
      + apply Pos2Z.pos_lt_pos in Y. lia.
    - split; lia. }
  pose proof (digits2_bounds mx) as D.
  assert (Z.pos (digits2_pos mx) = 53) as D53 by lia.
  rewrite D53 in D.
  apply SFdiv_100_ge_one; [cbn in *; lia | exact E | exact EM].
Qed.

Set Implicit Arguments.
End Div100.

Lemma b64_one_le_not_lt (a : float) :
  PrimFloat.leb 1 a = true -> PrimFloat.ltb 1 a = false -> a = 1%float.
Proof.
  rewrite leb_spec, ltb_spec. unfold SFleb, SFltb. intros L N.
  apply Prim2SF_inj.
  change (Prim2SF 1) with (S754_finite false 4503599627370496 (-52)) in *.
  destruct (Prim2SF a) as [s | [|] | | [|] m e];
    cbv beta iota delta [SFcompare] in L, N; try discriminate.
  destruct (-52 ?= e)%Z eqn:E; try discriminate.
  apply Z.compare_eq in E. subst e.
  destruct (Pos.compare_cont Eq 4503599627370496 m) eqn:M; try discriminate.
  apply Pcompare_Eq_eq in M. subst m. reflexivity.
Qed.

(** In the arithmetic of the program the height is the double 0.3 as
    soon as [m / 100] is at least 1. *)
Lemma newHeight_cap64 (m : float) :
  (1 <=? m / 100)%float = true -> Level.newHeight m = 0.3%float.
Proof.
  intros L. unfold Level.newHeight, std_min.
  change (m / dec 100.0)%dbl with (m / 100)%float.
  change (dec 1.0 <? (m / 100)%float)%dbl with (1 <? m / 100)%float.
  destruct (1 <? m / 100)%float eqn:N; [reflexivity|].
  rewrite (b64_one_le_not_lt L N). reflexivity.
Qed.

(** C5, as the claim states it, fails in the arithmetic of the program.  A
    fresh level after [update(60)] has mileage 60 and a new barrier of
    height [0.21999999999999997]; [0.1 + min(60/100, 1) * 0.2] is 0.22,
    whether it is evaluated in doubles or exactly and then rounded. *)
Lemma C5_height_counterexample :
  reachable rnd64 jump64 6 /\
  Level.mileage jump64 = 60%float /\
  (exists b, back (Level.barriers jump64) = Some b /\
             Barrier.height b = Level.newHeight 60%float /\
             Barrier.height b = 0.21999999999999997%float) /\
  (0.1 + std_min (60 / 100) 1 * 0.2)%float = 0.22%float /\
  @dec float _ (0.1 + Qmin (60 / 100) 1 * 0.2)%Q = 0.22%float /\
  (0.21999999999999997 =? 0.22)%float = false.
Proof.
  split.
  - apply (@reach_update _ _ rnd64 (dec 60.0) _ 4 _ _ fresh64_reachable).
    vm_compute. reflexivity.
  - split; [vm_compute; reflexivity|]. split.
    + eexists. split; [vm_compute; reflexivity|].
      split; vm_compute; reflexivity.
    + repeat split; vm_compute; reflexivity.
Qed.

(** C5, amended.  A new barrier gets the height
    [0.1 + min(m/100, 1) * (0.3 - 0.1)] of the mileage [m] at that time.
    In the arithmetic of the program [0.3 - 0.1] is the double
    [0.19999999999999998], the height is 0.1 at [m = 0] and the double 0.3
    for every [m >= 100].  In exact arithmetic the height equals
    [0.1 + min(m/100, 1) * 0.2] for every [m], does not decrease as [m]
    grows, increases strictly up to [m = 100] and is 0.3 from there on. *)
Theorem C5_height :
  (forall D (ops : Double D) (rnd : Oracle D) l k l' k',
     Level.addBarrier rnd l k = Ok l' k' ->
     exists b, back (Level.barriers l') = Some b /\
               Barrier.height b = Level.newHeight (Level.mileage l)) /\
  (forall m : float,
     Level.newHeight m
     = (0.1 + std_min (m / 100) 1 * 0.19999999999999998)%float) /\
  @Level.newHeight float _ 0%float = 0.1%float /\
  @Level.newHeight float _ 100%float = 0.3%float /\
  (forall m : float,
     (100 <=? m)%float = true -> Level.newHeight m = 0.3%float) /\
  (forall m : Q, Level.newHeight m == 0.1 + Qmin (m / 100) 1 * 0.2)%Q /\
  (forall m m' : Q, m <= m' -> Level.newHeight m <= Level.newHeight m')%Q /\
  (forall m m' : Q,
     m < m' /\ m' <= 100 -> Level.newHeight m < Level.newHeight m')%Q /\
  (forall m : Q, 100 <= m -> Level.newHeight m == 0.3)%Q.
Proof.
  split; [|repeat split].
  - intros D ops rnd l k l' k'. apply addBarrier_height.
  - intros m L. apply newHeight_cap64. apply b64_div_100_ge_one. exact L.
  - apply newHeight_formula.
  - apply newHeight_mono.
  - apply newHeight_increasing.
  - intros m. apply newHeight_exact.
Qed.

Lemma C5_height_witness :
  (Level.newHeight 50 < Level.newHeight 100)%Q /\
  (Level.newHeight 200 == 0.3)%Q.
Proof.
  split.
  - apply (proj1 (proj2 (proj2 (proj2 (proj2 (proj2 (proj2 (proj2 C5_height)))))))).
    split; [reflexivity | discriminate].
  - apply (proj2 (proj2 (proj2 (proj2 (proj2 (proj2 (proj2 (proj2 C5_height)))))))).
    discriminate.
Defined.

(** ** The step of length zero *)





Section ZeroStep.
Variable rnd : Oracle float.





End ZeroStep.




(** ** The score *)

Lemma SF_trunc_floor (f : spec_float) :
  nonneg_SF f -> SF_trunc f = SF_floor f.
Proof.
  destruct f as [s | s | | s m e]; cbn; try reflexivity.
  intros ->. destruct (0 <=? e)%Z eqn:E; [reflexivity|].
  f_equal. apply Z.quot_div_nonneg; [lia|].
  apply Z.pow_pos_nonneg; lia.
Qed.

Lemma binary_round_aux_nonneg prec emax mx ex lx :
  nonneg_SF (binary_round_aux prec emax false mx ex lx).
Proof.
  unfold binary_round_aux.
  destruct (shr_fexp prec emax mx ex lx) as [mrs' e'].
  destruct (shr_fexp prec emax _ e' loc_Exact) as [mrs'' e''].
  destruct (shr_m mrs'') as [|m|m]; cbn; trivial.
  destruct (e'' <=? emax - prec)%Z; cbn; trivial.
Qed.

Lemma b64_mul_5_nonneg (x : float) :
  (0 <=? x)%float = true -> nonneg_SF (Prim2SF (x * dec 5.0)%dbl).
Proof.
  rewrite leb_spec. cbn [dmul binary64 dec]. rewrite mul_spec.
  change (Prim2SF 0) with (S754_zero false).
  change (Prim2SF (b64_dec 5.0)) with (S754_finite false 5629499534213120 (-50)).
  destruct (Prim2SF x) as [s | [|] | | [|] m e]; cbn; trivial; try discriminate.
  intros _. apply binary_round_aux_nonneg.
Qed.

Lemma Q_trunc_floor (q : Q) : (0 <= q)%Q -> Q_trunc q = Qfloor q.
Proof.
  destruct q as [n d]. unfold Qle, Q_trunc, Qfloor. cbn. intros L.
  apply Z.quot_div_nonneg; lia.
Qed.

(** C9, as the claim states it, fails: after one step backwards,
    [update(-0.1)] on a fresh level, the mileage is [-0.1], the product
    [-0.5] has floor [-1], and [getScore] returns 0. *)
Lemma C9_score_counterexample :
  reachable rnd64 back64 4 /\
  Level.mileage back64 = (-0.1)%float /\
  SF_floor (Prim2SF (Level.mileage back64 * 5)%float) = Some (-1)%Z /\
  getScore back64 = Some 0%Z.
Proof.
  split.
  - apply (@reach_update _ _ rnd64 (- dec 0.1)%dbl _ 4 _ _ fresh64_reachable).
    vm_compute. reflexivity.
  - repeat split; vm_compute; reflexivity.
Qed.

(** C9, amended.  For a mileage that is not negative and a product
    [mileage * 5] whose floor fits an [int], [getScore] returns that floor,
    in the arithmetic of the program and in exact arithmetic; mileage 1.0
    gives 5 and mileage 0.19 gives 0. *)
Theorem C9_score :
  (forall (l : Level.t float) (z : Z),
     (0 <=? Level.mileage l)%float = true ->
     SF_floor (Prim2SF (Level.mileage l * 5)%float) = Some z ->
     (z <= INT_MAX)%Z ->
     getScore l = Some z) /\
  (forall l : Level.t Q,
     (0 <= Level.mileage l)%Q ->
     (Qfloor (Level.mileage l * 5) <= INT_MAX)%Z ->
     getScore l = Some (Qfloor (Level.mileage l * 5))) /\
  (forall q, getScore (Level.Build q 1%float) = Some 5%Z) /\
  (forall q, getScore (Level.Build q 0.19%float) = Some 0%Z).
Proof.
  split; [|split; [|split]].
  - intros l z P F U. unfold getScore, Level.getMileage. cbn [to_int binary64].
    unfold b64_to_int.
    pose proof (b64_mul_5_nonneg P) as N.
    rewrite (SF_trunc_floor _ N).
    change (Level.mileage l * dec 5.0)%dbl with (Level.mileage l * 5)%float.
    rewrite F.
    assert (0 <= z)%Z as L.
    { change (Level.mileage l * dec 5.0)%dbl with (Level.mileage l * 5)%float in N.
      destruct (Prim2SF (Level.mileage l * 5)%float) as [s | s | | s m e];
        unfold SF_floor, nonneg_SF in F, N; try discriminate F;
        injection F as <-; [lia|].
      subst s. destruct (0 <=? e)%Z eqn:E.
      - pose proof (Z.pow_nonneg 2 e ltac:(lia)) as P2.
        destruct (2 ^ e)%Z; lia.
      - apply Z.div_pos; [lia|]. apply Z.pow_pos_nonneg; lia. }
    unfold in_int_range.
    replace (INT_MIN <=? z)%Z with true by (symmetry; apply Z.leb_le; unfold INT_MIN; lia).
    replace (z <=? INT_MAX)%Z with true by (symmetry; apply Z.leb_le; exact U).
    reflexivity.
  - intros l P U. unfold getScore, Level.getMileage. cbn [to_int exact].
    unfold Q_to_int.
    assert (0 <= Level.mileage l * 5.0)%Q as P' by lra.
    change (Level.mileage l * dec 5.0)%dbl with (Level.mileage l * 5.0)%Q.
    rewrite (Q_trunc_floor P').
    assert (Qfloor (Level.mileage l * 5.0) = Qfloor (Level.mileage l * 5)) as E
      by (apply Qfloor_comp; lra).
    rewrite E.
    assert (0 <= Qfloor (Level.mileage l * 5))%Z as L.
    { change 0%Z with (Qfloor 0). apply Qfloor_resp_le. lra. }
    unfold in_int_range.
    replace (INT_MIN <=? _)%Z with true by (symmetry; apply Z.leb_le; unfold INT_MIN; lia).
    replace (_ <=? INT_MAX)%Z with true by (symmetry; apply Z.leb_le; exact U).
    reflexivity.
  - intros q. vm_compute. reflexivity.
  - intros q. vm_compute. reflexivity.
Qed.

Lemma C9_score_witness : getScore tick64 = Some 0%Z.
Proof.
  apply (proj1 C9_score tick64 0%Z).
  - vm_compute. reflexivity.
  - vm_compute. reflexivity.
  - vm_compute. discriminate.
Defined.

(** ** A way through every new barrier *)

Lemma compare_cont_swap (p q : positive) :
  Pos.compare_cont Eq q p = CompOpp (Pos.compare_cont Eq p q).
Proof. symmetry. exact (Pos.compare_cont_antisym p q Eq). Qed.

Lemma SFcompare_Lt_swap (a b : spec_float) :
  SFcompare a b = Some Lt -> SFcompare b a = Some Gt.
Proof.
  destruct a as [sa | sa | | sa ma ea], b as [sb | sb | | sb mb eb];
    cbn; try discriminate;
    try (destruct sa; try discriminate; try reflexivity;
         destruct sb; try discriminate; reflexivity);
    try (destruct sb; try discriminate; reflexivity).
  destruct sa, sb; try discriminate; try reflexivity;
    rewrite (Z.compare_antisym ea eb);
    destruct (ea ?= eb)%Z; cbn; try discriminate; try reflexivity;
    rewrite (compare_cont_swap ma mb);
    destruct (Pos.compare_cont Eq ma mb); cbn; try discriminate; reflexivity.
Qed.

Lemma b64_ltb_not_leb (x y : float) :
  PrimFloat.ltb x y = true -> PrimFloat.leb y x = false.
Proof.
  rewrite ltb_spec, leb_spec. unfold SFltb, SFleb.
  destruct (SFcompare (Prim2SF x) (Prim2SF y)) as [[| |]|] eqn:E;
    try discriminate.
  intros _. rewrite (SFcompare_Lt_swap _ _ E). reflexivity.
Qed.

Lemma exact_ltb (x y : Q) : (x <? y)%dbl = true <-> (x < y)%Q.
Proof.
  cbn. rewrite negb_true_iff. split.
  - intros E. destruct (Qlt_le_dec x y) as [L|L]; [exact L|].
    apply Qle_bool_iff in L. congruence.
  - intros L. destruct (Qle_bool y x) eqn:E; [|reflexivity].
    apply Qle_bool_iff in E. lra.
Qed.

Lemma exact_leb (x y : Q) : (x <=? y)%dbl = true <-> (x <= y)%Q.
Proof. cbn. apply Qle_bool_iff. Qed.

Lemma half_hole : (@holeWidth Q _ / dec 2.0 == 0.125)%Q.
Proof. vm_compute. reflexivity. Qed.

Ltac kconst c :=
  let v := eval vm_compute in (fkey c) in
  let H := fresh "K" in
  assert (fkey c = v) as H by (vm_compute; reflexivity).

(** ** The order of the doubles, and the three operations of
    [addBarrier] on a draw in [0.4, 0.6] *)

Section Binary64.
Local Open Scope Z_scope.
Unset Implicit Arguments.

Lemma lex_Lt a b : lex a b = Lt <-> lt3 a b.
Proof.
  destruct a as [[a1 a2] a3], b as [[b1 b2] b3]. unfold lex, lt3. cbn [fst snd].
  destruct (Z.compare_spec a1 b1), (Z.compare_spec a2 b2), (Z.compare_spec a3 b3);
    split; intros X; try discriminate X; try reflexivity; lia.
Qed.

Lemma lex_Eq a b : lex a b = Eq <-> a = b.
Proof.
  destruct a as [[a1 a2] a3], b as [[b1 b2] b3]. unfold lex. cbn [fst snd].
  destruct (Z.compare_spec a1 b1), (Z.compare_spec a2 b2), (Z.compare_spec a3 b3);
    split; intros X; try discriminate X; try reflexivity;
    try (injection X; intros; lia); subst; reflexivity.
Qed.

Lemma SFcompare_key (a b : spec_float) :
  SFcompare a b =
  match key a, key b with
  | Some ka, Some kb => Some (lex ka kb)
  | _, _ => None
  end.
Proof.
  destruct a as [sa | [|] | | [|] ma ea], b as [sb | [|] | | [|] mb eb];
    try reflexivity.
  cbn [SFcompare key]. unfold lex. cbn [fst snd].
  change (-1 ?= -1) with Eq. cbv iota.
  rewrite Z.compare_opp. rewrite (Z.compare_antisym ea eb).
  destruct (ea ?= eb); reflexivity.
Qed.

Lemma ltb_key (x y : float) :
  (x <? y)%float = true <->
  exists a b, fkey x = Some a /\ fkey y = Some b /\ lt3 a b.
Proof.
  rewrite ltb_spec. unfold SFltb, fkey. rewrite SFcompare_key.
  destruct (key (Prim2SF x)) as [a|], (key (Prim2SF y)) as [b|].
  - destruct (lex a b) eqn:E; split; intros X; try discriminate X;
      try reflexivity.
    + destruct X as (a' & b' & A & B & L). injection A as <-. injection B as <-.
      apply lex_Lt in L. congruence.
    + exists a, b. repeat split. apply lex_Lt. exact E.
    + destruct X as (a' & b' & A & B & L). injection A as <-. injection B as <-.
      apply lex_Lt in L. congruence.
  - split; [discriminate|]. intros (a' & b' & _ & B & _). discriminate B.
  - split; [discriminate|]. intros (a' & b' & A & _ & _). discriminate A.
  - split; [discriminate|]. intros (a' & b' & A & _ & _). discriminate A.
Qed.

Lemma leb_key (x y : float) :
  (x <=? y)%float = true <->
  exists a b, fkey x = Some a /\ fkey y = Some b /\ le3 a b.
Proof.
  rewrite leb_spec. unfold SFleb, fkey. rewrite SFcompare_key.
  destruct (key (Prim2SF x)) as [a|], (key (Prim2SF y)) as [b|].
  - destruct (lex a b) eqn:E; split; intros X; try discriminate X;
      try reflexivity.
    + exists a, b. repeat split. right. apply lex_Eq. exact E.
    + exists a, b. repeat split. left. apply lex_Lt. exact E.
    + destruct X as (a' & b' & A & B & [L | L]); injection A as <-; injection B as <-.
      * apply lex_Lt in L. congruence.
      * apply lex_Eq in L. congruence.
  - split; [discriminate|]. intros (a' & b' & _ & B & _). discriminate B.
  - split; [discriminate|]. intros (a' & b' & A & _ & _). discriminate A.
  - split; [discriminate|]. intros (a' & b' & A & _ & _). discriminate A.
Qed.

Lemma lt3_le3_trans a b c : lt3 a b -> le3 b c -> lt3 a c.
Proof.
  destruct a as [[a1 a2] a3], b as [[b1 b2] b3], c as [[c1 c2] c3].
  unfold le3, lt3. cbn [fst snd]. intros L [M | M]; [lia|].
  injection M as <- <- <-. lia.
Qed.

Lemma le3_lt3_trans a b c : le3 a b -> lt3 b c -> lt3 a c.
Proof.
  destruct a as [[a1 a2] a3], b as [[b1 b2] b3], c as [[c1 c2] c3].
  unfold le3, lt3. cbn [fst snd]. intros [L | L] M; [lia|].
  injection L as -> -> ->. lia.
Qed.

Lemma le3_trans a b c : le3 a b -> le3 b c -> le3 a c.
Proof.
  intros [L | ->] M; [|exact M]. left. eapply lt3_le3_trans; eassumption.
Qed.

Lemma b64_lt_le_trans (x y z : float) :
  (x <? y)%float = true -> (y <=? z)%float = true -> (x <? z)%float = true.
Proof.
  rewrite !ltb_key, leb_key.
  intros (a & b & A & B & L) (b' & c & B' & C & M).
  rewrite B in B'. injection B' as <-.
  exists a, c. repeat split; try assumption. eapply lt3_le3_trans; eassumption.
Qed.

Lemma b64_le_lt_trans (x y z : float) :
  (x <=? y)%float = true -> (y <? z)%float = true -> (x <? z)%float = true.
Proof.
  rewrite !ltb_key, leb_key.
  intros (a & b & A & B & L) (b' & c & B' & C & M).
  rewrite B in B'. injection B' as <-.
  exists a, c. repeat split; try assumption. eapply le3_lt3_trans; eassumption.
Qed.

Lemma b64_le_trans (x y z : float) :
  (x <=? y)%float = true -> (y <=? z)%float = true -> (x <=? z)%float = true.
Proof.
  rewrite !leb_key.
  intros (a & b & A & B & L) (b' & c & B' & C & M).
  rewrite B in B'. injection B' as <-.
  exists a, c. repeat split; try assumption. eapply le3_trans; eassumption.
Qed.

(** Rounding a mantissa of 52, 53 or 54 digits *)

Lemma round_aux_53 (q : positive) (e : Z) :
  2 ^ 52 <= Z.pos q < 2 ^ 53 -> -1074 <= e <= 971 ->
  binary_round_aux 53 1024 false (Z.pos q) e loc_Exact = S754_finite false q e.
Proof.
  intros Q E. unfold binary_round_aux.
  rewrite shr_fexp_53 by lia.
  cbn [shr_record_of_loc shr_m loc_of_shr_record shr_r shr_s round_nearest_even].
  rewrite shr_fexp_53 by lia.
  cbn [shr_record_of_loc shr_m].
  replace (e <=? 1024 - 53) with true by (symmetry; apply Z.leb_le; lia).
  reflexivity.
Qed.

Lemma round_aux_54 (q : positive) (e : Z) :
  2 ^ 53 <= Z.pos q < 2 ^ 54 - 2 -> -1075 <= e <= 970 ->
  exists m',
    binary_round_aux 53 1024 false (Z.pos q) e loc_Exact
    = S754_finite false m' (e + 1) /\
    Z.pos q - 1 <= 2 * Z.pos m' <= Z.pos q + 1 /\
    (forall h, Z.pos q = 2 * h -> Z.pos m' = h).
Proof.
  intros Q E. unfold binary_round_aux.
  rewrite shr_fexp_54 by lia.
  destruct q as [p | p |]; [| |cbn in Q; lia];
    cbn [shr_record_of_loc shr_1 shr_m loc_of_shr_record shr_r shr_s orb
         round_nearest_even].
  - destruct (Z.even (Z.pos p)).
    + rewrite shr_fexp_53 by lia. cbn [shr_record_of_loc shr_m].
      replace (e + 1 <=? 1024 - 53) with true by (symmetry; apply Z.leb_le; lia).
      exists p. split; [reflexivity|]. split; [lia|]. intros h X. lia.
    + change (Z.pos p + 1) with (Z.pos (p + 1)).
      rewrite shr_fexp_53 by lia. cbn [shr_record_of_loc shr_m].
      replace (e + 1 <=? 1024 - 53) with true by (symmetry; apply Z.leb_le; lia).
      exists (p + 1)%positive. split; [reflexivity|]. split; [lia|].
      intros h X. lia.
  - rewrite shr_fexp_53 by lia. cbn [shr_record_of_loc shr_m].
    replace (e + 1 <=? 1024 - 53) with true by (symmetry; apply Z.leb_le; lia).
    exists p. split; [reflexivity|]. split; [lia|]. intros h X. lia.
Qed.

Lemma binary_round_52 (q : positive) (e : Z) :
  2 ^ 51 <= Z.pos q < 2 ^ 52 -> -1073 <= e <= 972 ->
  binary_round 53 1024 false q e = S754_finite false q~0 (e - 1).
Proof.
  intros Q E. unfold binary_round.
  rewrite (digits2_unique q 52) by (cbn; lia).
  unfold fexp, SpecFloat.emin.
  replace (Z.max (52 + e - 53) (3 - 1024 - 53)) with (e - 1) by lia.
  unfold shl_align. replace (e - 1 - e) with (-1) by lia.
  cbn [Pos.iter]. apply round_aux_53; lia.
Qed.

Lemma binary_round_53 (q : positive) (e : Z) :
  2 ^ 52 <= Z.pos q < 2 ^ 53 -> -1074 <= e <= 971 ->
  binary_round 53 1024 false q e = S754_finite false q e.
Proof.
  intros Q E. unfold binary_round.
  rewrite (digits2_unique q 53) by (cbn; lia).
  unfold fexp, SpecFloat.emin.
  replace (Z.max (53 + e - 53) (3 - 1024 - 53)) with e by lia.
  unfold shl_align. rewrite Z.sub_diag. apply round_aux_53; lia.
Qed.

Lemma binary_round_54 (q : positive) (e : Z) :
  2 ^ 53 <= Z.pos q < 2 ^ 54 - 2 -> -1075 <= e <= 970 ->
  exists m',
    binary_round 53 1024 false q e = S754_finite false m' (e + 1) /\
    Z.pos q - 1 <= 2 * Z.pos m' <= Z.pos q + 1 /\
    (forall h, Z.pos q = 2 * h -> Z.pos m' = h).
Proof.
  intros Q E. unfold binary_round.
  rewrite (digits2_unique q 54) by (cbn; lia).
  unfold fexp, SpecFloat.emin.
  replace (Z.max (54 + e - 53) (3 - 1024 - 53)) with (e + 1) by lia.
  unfold shl_align. replace (e + 1 - e) with 1 by lia.
  apply round_aux_54; lia.
Qed.

Lemma normalize_pos (m e : Z) :
  0 < m ->
  binary_normalize 53 1024 m e false = binary_round 53 1024 false (Z.to_pos m) e.
Proof. destruct m; try lia. reflexivity. Qed.

(** The three operations of [addBarrier] on a double in [0.25, 1) *)

Lemma shl_align_0 (m : positive) (e : Z) : shl_align m e e = (m, e).
Proof. unfold shl_align. rewrite Z.sub_diag. reflexivity. Qed.

Lemma shl_align_1 (m : positive) (e e' : Z) :
  e' = e - 1 -> shl_align m e e' = (m~0, e')%positive.
Proof.
  intros ->. unfold shl_align. replace (e - 1 - e) with (-1) by lia. reflexivity.
Qed.

Lemma shl_align_2 (m : positive) (e e' : Z) :
  e' = e - 2 -> shl_align m e e' = (m~0~0, e')%positive.
Proof.
  intros ->. unfold shl_align. replace (e - 2 - e) with (-2) by lia. reflexivity.
Qed.

(** [x - 0.125] *)
Lemma sub_eighth_54 (mx : positive) :
  6755399441055744 <= Z.pos mx < 2 ^ 53 ->
  exists m',
    SFsub 53 1024 (S754_finite false mx (-54))
      (S754_finite false 4503599627370496 (-55))
    = S754_finite false m' (-54) /\
    Z.pos m' = Z.pos mx - 2 ^ 51.
Proof.
  intros M. unfold SFsub. cbv zeta.
  change (Z.min (-54) (-55)) with (-55).
  rewrite (shl_align_1 mx (-54) (-55)) by reflexivity.
  rewrite shl_align_0. cbn [fst cond_Zopp].
  rewrite normalize_pos by lia.
  destruct (binary_round_54 (Z.to_pos (Z.pos mx~0 - 4503599627370496)) (-55))
    as (m' & R & _ & H); [rewrite Z2Pos.id by lia; lia | lia |].
  exists m'. split; [exact R|].
  apply H. rewrite Z2Pos.id by lia. lia.
Qed.

Lemma sub_eighth_53 (mx : positive) :
  2 ^ 52 <= Z.pos mx <= 5629499534213119 ->
  exists m',
    SFsub 53 1024 (S754_finite false mx (-53))
      (S754_finite false 4503599627370496 (-55))
    = S754_finite false m' (-54) /\
    Z.pos m' = 2 * Z.pos mx - 2 ^ 51.
Proof.
  intros M. unfold SFsub. cbv zeta.
  change (Z.min (-53) (-55)) with (-55).
  rewrite (shl_align_2 mx (-53) (-55)) by reflexivity.
  rewrite shl_align_0. cbn [fst cond_Zopp].
  rewrite normalize_pos by lia.
  destruct (binary_round_54 (Z.to_pos (Z.pos mx~0~0 - 4503599627370496)) (-55))
    as (m' & R & _ & H); [rewrite Z2Pos.id by lia; lia | lia |].
  exists m'. split; [exact R|].
  apply H. rewrite Z2Pos.id by lia. lia.
Qed.

(** [x + 0.25] *)
Lemma add_quarter_54 (mx : positive) :
  2 ^ 52 <= Z.pos mx < 2 ^ 53 ->
  exists m',
    SFadd 53 1024 (S754_finite false mx (-54))
      (S754_finite false 4503599627370496 (-54))
    = S754_finite false m' (-53) /\
    Z.pos mx + 2 ^ 52 - 1 <= 2 * Z.pos m' <= Z.pos mx + 2 ^ 52 + 1.
Proof.
  intros M. unfold SFadd. cbv zeta.
  change (Z.min (-54) (-54)) with (-54).
  rewrite !shl_align_0. cbn [fst cond_Zopp].
  rewrite normalize_pos by lia.
  destruct (binary_round_54 (Z.to_pos (Z.pos mx + 4503599627370496)) (-54))
    as (m' & R & B & _); [rewrite Z2Pos.id by lia; lia | lia |].
  exists m'. split; [exact R|].
  rewrite Z2Pos.id in B by lia. lia.
Qed.

Lemma add_quarter_53 (mx : positive) :
  2 ^ 52 <= Z.pos mx <= 6755399441055742 ->
  exists m',
    SFadd 53 1024 (S754_finite false mx (-53))
      (S754_finite false 4503599627370496 (-54))
    = S754_finite false m' (-53) /\
    Z.pos m' = Z.pos mx + 2 ^ 51.
Proof.
  intros M. unfold SFadd. cbv zeta.
  change (Z.min (-53) (-54)) with (-54).
  rewrite (shl_align_1 mx (-53) (-54)) by reflexivity.
  rewrite shl_align_0. cbn [fst cond_Zopp].
  rewrite normalize_pos by lia.
  destruct (binary_round_54 (Z.to_pos (Z.pos mx~0 + 4503599627370496)) (-54))
    as (m' & R & _ & H); [rewrite Z2Pos.id by lia; lia | lia |].
  exists m'. split; [exact R|].
  apply H. rewrite Z2Pos.id by lia. lia.
Qed.

(** [1.0 - x] *)
Lemma one_minus_54 (mx : positive) :
  2 ^ 52 <= Z.pos mx < 2 ^ 53 ->
  exists m',
    SFsub 53 1024 (S754_finite false 4503599627370496 (-52))
      (S754_finite false mx (-54))
    = S754_finite false m' (-53) /\
    2 ^ 54 - Z.pos mx - 1 <= 2 * Z.pos m' <= 2 ^ 54 - Z.pos mx + 1.
Proof.
  intros M. unfold SFsub. cbv zeta.
  change (Z.min (-52) (-54)) with (-54).
  rewrite (shl_align_2 4503599627370496 (-52) (-54)) by reflexivity.
  rewrite shl_align_0. cbn [fst cond_Zopp].
  rewrite normalize_pos by lia.
  destruct (binary_round_54
              (Z.to_pos (Z.pos (4503599627370496~0~0) - Z.pos mx)) (-54))
    as (m' & R & B & _); [rewrite Z2Pos.id by lia; lia | lia |].
  exists m'. split; [exact R|].
  rewrite Z2Pos.id in B by lia. lia.
Qed.

Lemma one_minus_53 (mx : positive) :
  2 ^ 52 <= Z.pos mx <= 6755399441055744 ->
  exists m' e',
    SFsub 53 1024 (S754_finite false 4503599627370496 (-52))
      (S754_finite false mx (-53))
    = S754_finite false m' e' /\
    ((e' = -54 /\ Z.pos m' = 2 * (2 ^ 53 - Z.pos mx)) \/
     (e' = -53 /\ Z.pos m' = 2 ^ 53 - Z.pos mx)) /\
    2 ^ 52 <= Z.pos m' < 2 ^ 53.
Proof.
  intros M. unfold SFsub. cbv zeta.
  change (Z.min (-52) (-53)) with (-53).
  rewrite (shl_align_1 4503599627370496 (-52) (-53)) by reflexivity.
  rewrite shl_align_0. cbn [fst cond_Zopp].
  rewrite normalize_pos by lia.
  set (s := Z.to_pos (Z.pos (4503599627370496~0) - Z.pos mx)).
  assert (Z.pos s = 2 ^ 53 - Z.pos mx) as S
    by (unfold s; rewrite Z2Pos.id by lia; lia).
  destruct (Z_lt_le_dec (Z.pos s) (2 ^ 52)) as [L | L].
  - rewrite binary_round_52 by lia.
    eexists _, _. split; [reflexivity|]. split; [left|]; lia.
  - rewrite binary_round_53 by lia.
    eexists _, _. split; [reflexivity|]. split; [right|]; lia.
Qed.

(** Doubles between two positive constants *)

Lemma finite_key (x : float) (e m : Z) :
  fkey x = Some (1, e, m) -> -1074 < e ->
  exists mx, Prim2SF x = S754_finite false mx e /\ Z.pos mx = m /\
             2 ^ 52 <= m < 2 ^ 53.
Proof.
  unfold fkey. intros K E. pose proof (Prim2SF_valid x) as V.
  destruct (Prim2SF x) as [s | [|] | | [|] mx ex]; try discriminate K.
  cbn [key] in K. injection K as -> <-.
  exists mx. split; [reflexivity|]. split; [reflexivity|].
  cbn [SpecFloat.valid_binary] in V. unfold bounded, canonical_mantissa in V.
  apply andb_true_iff in V. destruct V as [C _]. apply Z.eqb_eq in C.
  unfold fexp, SpecFloat.emin, prec, emax in C.
  pose proof (digits2_bounds mx) as D.
  assert (Z.pos (digits2_pos mx) = 53) as D53 by lia.
  rewrite D53 in D. cbn in D. cbn. lia.
Qed.

Lemma between_key (c1 c2 x : float) (e1 m1 e2 m2 : Z) :
  fkey c1 = Some (1, e1, m1) -> fkey c2 = Some (1, e2, m2) -> -1074 < e1 ->
  (c1 <=? x)%float = true -> (x <=? c2)%float = true ->
  exists e mx,
    Prim2SF x = S754_finite false mx e /\
    2 ^ 52 <= Z.pos mx < 2 ^ 53 /\
    (e1 < e \/ (e1 = e /\ m1 <= Z.pos mx)) /\
    (e < e2 \/ (e = e2 /\ Z.pos mx <= m2)).
Proof.
  intros K1 K2 E1 L U.
  apply leb_key in L. destruct L as (a & b & A & B & L).
  apply leb_key in U. destruct U as (b' & c & B' & C & U).
  rewrite K1 in A. injection A as <-. rewrite K2 in C. injection C as <-.
  rewrite B in B'. injection B' as <-.
  destruct b as [[b1 b2] b3].
  assert (b1 = 1 /\ (e1 < b2 \/ (e1 = b2 /\ m1 <= b3)) /\
          (b2 < e2 \/ (b2 = e2 /\ b3 <= m2))) as (-> & X & Y).
  { unfold le3, lt3 in L, U. cbn [fst snd] in L, U.
    destruct L as [L | L], U as [U | U];
      try (injection L as L1 L2 L3); try (injection U as U1 U2 U3); lia. }
  destruct (finite_key x b2 b3 B ltac:(lia)) as (mx & P & <- & R).
  exists b2, mx. repeat split; try assumption; lia.
Qed.

Lemma leb_of_key (c x : float) (e1 m1 e m : Z) :
  fkey c = Some (1, e1, m1) -> fkey x = Some (1, e, m) ->
  (e1 < e \/ (e1 = e /\ m1 <= m)) -> (c <=? x)%float = true.
Proof.
  intros K1 K2 L. apply leb_key. eexists _, _. split; [exact K1|].
  split; [exact K2|]. unfold le3, lt3. cbn [fst snd].
  destruct L as [L | [-> L]]; [left; lia|].
  destruct (Z.eq_dec m1 m) as [-> | N]; [right; reflexivity | left; lia].
Qed.

Lemma ltb_of_key (c x : float) (e1 m1 e m : Z) :
  fkey c = Some (1, e1, m1) -> fkey x = Some (1, e, m) ->
  (e1 < e \/ (e1 = e /\ m1 < m)) -> (c <? x)%float = true.
Proof.
  intros K1 K2 L. apply ltb_key. eexists _, _. split; [exact K1|].
  split; [exact K2|]. unfold lt3. cbn [fst snd]. lia.
Qed.

Lemma fkey_finite (x : float) mx e :
  Prim2SF x = S754_finite false mx e -> fkey x = Some (1, e, Z.pos mx).
Proof. unfold fkey. intros ->. reflexivity. Qed.

(** [pos - 0.125] for [pos] in [0.4, 0.6] *)
Lemma b64_sub_eighth (pos : float) :
  (0.4 <=? pos)%float = true -> (pos <=? 0.6)%float = true ->
  (0.4 - 0.125 <=? pos - 0.125)%float = true /\
  (pos - 0.125 <=? 0.48)%float = true /\
  ((0.4 <? pos)%float = true -> (0.4 - 0.125 <? pos - 0.125)%float = true).
Proof.
  intros L U. kconst 0.4%float. kconst 0.6%float.
  destruct (between_key _ _ pos _ _ _ _ K K0 ltac:(lia) L U)
    as (e & mx & P & R & Lo & Hi).
  assert (exists m', Prim2SF (pos - 0.125)%float = S754_finite false m' (-54) /\
            ((e = -54 /\ Z.pos m' = Z.pos mx - 2 ^ 51) \/
             (e = -53 /\ Z.pos m' = 2 * Z.pos mx - 2 ^ 51))) as (m' & P' & M').
  { rewrite sub_spec, P.
    change (Prim2SF 0.125) with (S754_finite false 4503599627370496 (-55)).
    assert (e = -54 \/ e = -53) as [-> | ->] by lia.
    - destruct (sub_eighth_54 mx ltac:(lia)) as (m' & E & M').
      exists m'. split; [exact E|]. left. split; [reflexivity | exact M'].
    - destruct (sub_eighth_53 mx ltac:(lia)) as (m' & E & M').
      exists m'. split; [exact E|]. right. split; [reflexivity | exact M']. }
  apply fkey_finite in P'. apply fkey_finite in P.
  kconst (0.4 - 0.125)%float. kconst 0.48%float.
  split; [|split].
  - eapply leb_of_key; [exact K1 | exact P' | lia].
  - eapply leb_of_key; [exact P' | exact K2 | lia].
  - intros S. apply ltb_key in S. destruct S as (a & b & A & B & S).
    rewrite K in A. injection A as <-. rewrite P in B. injection B as <-.
    unfold lt3 in S. cbn [fst snd] in S.
    eapply ltb_of_key; [exact K1 | exact P' | lia].
Qed.

(** [1.0 - pos] for [pos] in [0.4, 0.6] *)
Lemma b64_one_minus (pos : float) :
  (0.4 <=? pos)%float = true -> (pos <=? 0.6)%float = true ->
  (0.39 <=? 1 - pos)%float = true /\ (1 - pos <=? 0.61)%float = true.
Proof.
  intros L U. kconst 0.4%float. kconst 0.6%float.
  destruct (between_key _ _ pos _ _ _ _ K K0 ltac:(lia) L U)
    as (e & mx & P & R & Lo & Hi).
  kconst 0.39%float. kconst 0.61%float.
  assert (e = -54 \/ e = -53) as [-> | ->] by lia.
  - destruct (one_minus_54 mx ltac:(lia)) as (m' & E & M').
    assert (Prim2SF (1 - pos)%float = S754_finite false m' (-53)) as P'.
    { rewrite sub_spec, P. exact E. }
    apply fkey_finite in P'. split.
    + eapply leb_of_key; [exact K1 | exact P' | lia].
    + eapply leb_of_key; [exact P' | exact K2 | lia].
  - destruct (one_minus_53 mx ltac:(lia)) as (m' & e' & E & M' & R').
    assert (Prim2SF (1 - pos)%float = S754_finite false m' e') as P'.
    { rewrite sub_spec, P. exact E. }
    apply fkey_finite in P'. split.
    + eapply leb_of_key; [exact K1 | exact P' | lia].
    + eapply leb_of_key; [exact P' | exact K2 | lia].
Qed.

(** [x + 0.25] for [x] in [0.25, 0.74] *)
Lemma b64_add_quarter_key (x : float) :
  (0.25 <=? x)%float = true -> (x <=? 0.74)%float = true ->
  exists e mx m',
    Prim2SF x = S754_finite false mx e /\
    Prim2SF (x + 0.25)%float = S754_finite false m' (-53) /\
    2 ^ 52 <= Z.pos mx < 2 ^ 53 /\
    ((e = -54 /\ Z.pos mx + 2 ^ 52 - 1 <= 2 * Z.pos m') \/
     (e = -53 /\ Z.pos m' = Z.pos mx + 2 ^ 51)).
Proof.
  intros L U. kconst 0.25%float. kconst 0.74%float.
  destruct (between_key _ _ x _ _ _ _ K K0 ltac:(lia) L U)
    as (e & mx & P & R & Lo & Hi).
  exists e, mx.
  assert (e = -54 \/ e = -53) as [-> | ->] by lia.
  - destruct (add_quarter_54 mx ltac:(lia)) as (m' & E & M').
    exists m'. split; [exact P|]. split; [rewrite add_spec, P; exact E|].
    split; [exact R|]. left. split; [reflexivity | lia].
  - destruct (add_quarter_53 mx ltac:(lia)) as (m' & E & M').
    exists m'. split; [exact P|]. split; [rewrite add_spec, P; exact E|].
    split; [exact R|]. right. split; [reflexivity | exact M'].
Qed.

Lemma b64_add_quarter (a a' x : float) (ea ma ma' : Z) :
  fkey a = Some (1, ea, ma) -> fkey a' = Some (1, -53, ma') ->
  (ea = -54 /\ 2 * ma' <= ma + 2 ^ 52 - 1 /\ ma < 2 ^ 53) \/
  (ea = -53 /\ ma' <= ma + 2 ^ 51 /\ 2 ^ 52 <= ma) ->
  (0.25 <=? a)%float = true ->
  (a <=? x)%float = true -> (x <=? 0.74)%float = true ->
  (a' <=? x + 0.25)%float = true.
Proof.
  intros Ka Ka' C A L U.
  assert ((0.25 <=? x)%float = true) as L0 by (eapply b64_le_trans; eassumption).
  destruct (b64_add_quarter_key x L0 U) as (e & mx & m' & P & P' & R & M).
  apply fkey_finite in P. apply fkey_finite in P'.
  apply leb_key in L. destruct L as (ka & kx & Ka2 & Kx & L).
  rewrite Ka in Ka2. injection Ka2 as <-. rewrite P in Kx. injection Kx as <-.
  eapply leb_of_key; [exact Ka' | exact P' |].
  right. split; [reflexivity|].
  unfold le3, lt3 in L. cbn [fst snd] in L.
  destruct L as [L | L]; [|injection L as -> ->]; lia.
Qed.

Lemma b64_eqb_key (x y : float) :
  (x =? y)%float = true <-> exists a, fkey x = Some a /\ fkey y = Some a.
Proof.
  rewrite eqb_spec. unfold SFeqb, fkey. rewrite SFcompare_key.
  destruct (key (Prim2SF x)) as [a|], (key (Prim2SF y)) as [b|].
  - destruct (lex a b) eqn:E; split; intros X; try discriminate X;
      try reflexivity.
    + apply lex_Eq in E. subst b. exists a. split; reflexivity.
    + destruct X as (c & A & B). injection A as ->. injection B as ->.
      assert (lex c c = Eq) by (apply lex_Eq; reflexivity). congruence.
    + destruct X as (c & A & B). injection A as ->. injection B as ->.
      assert (lex c c = Eq) by (apply lex_Eq; reflexivity). congruence.
  - split; [discriminate|]. intros (c & _ & B). discriminate B.
  - split; [discriminate|]. intros (c & A & _). discriminate A.
  - split; [discriminate|]. intros (c & A & _). discriminate A.
Qed.

Lemma b64_le_neq_lt (x y : float) :
  (x <=? y)%float = true -> (y =? x)%float <> true -> (x <? y)%float = true.
Proof.
  intros L N. apply leb_key in L. destruct L as (a & b & A & B & [L | L]).
  - apply ltb_key. exists a, b. repeat split; assumption.
  - exfalso. apply N. apply b64_eqb_key. exists a. subst b. split; assumption.
Qed.

Set Implicit Arguments.
End Binary64.

(** C8, as the claim states it, fails at the lower end of the range of
    [pos]: with [Random(0.4, 0.6) = 0.4] and [Random(0, 2) = 1] the barrier
    appended behind the initial Slit is a Right one with
    [leftToHole = 0.4 - holeWidth/2], the lower edge of the centre band; it
    is solid from that edge on, so no passage intersects the band. *)
Lemma C8_solvable_counterexample :
  in_contract (rnd_edge : Oracle float) /\
  (exists l', Level.addBarrier (rnd_edge : Oracle float) Level.initial 0 = Ok l' 2 /\
              back (Level.barriers l') = Some edge64) /\
  Barrier.leftToHole edge64 = 0.27500000000000002%float /\
  ~ solvable edge64.
Proof.
  split; [|split; [|split]].
  - intros k. cbn. split; [|split]; try (vm_compute; reflexivity). lia.
  - eexists. split; vm_compute; reflexivity.
  - vm_compute. reflexivity.
  - intros (a & c & (_ & _ & _ & _ & Pass) & x & Hax & Hxc & (Lo & _)).
    specialize (Pass x Hax Hxc). unfold solid in Pass.
    cbn [edge64 Barrier.type Barrier.leftToHole] in Pass.
    apply negb_false_iff in Pass.
    apply b64_ltb_not_leb in Pass.
    cbn [dleb dltb binary64] in Lo, Pass. rewrite Lo in Pass. discriminate Pass.
Qed.

Section Solvable.
Variable rnd : Oracle Q.
Hypothesis contract : in_contract rnd.
Open Scope Q_scope.

Ltac to_Q :=
  repeat match goal with
  | |- _ /\ _ => split
  | |- (_ <? _)%dbl = true => apply exact_ltb
  | |- (_ <=? _)%dbl = true => apply exact_leb
  | H : (_ <? _)%dbl = true |- _ => apply exact_ltb in H
  | H : (_ <=? _)%dbl = true |- _ => apply exact_leb in H
  end.

Ltac qlra := cbn [dadd dsub dmul ddiv dopp dec exact] in *; lra.

Lemma pos_range k : 0.4 <= Random_double rnd k <= 0.6.
Proof. destruct (contract k) as (L & U & _). to_Q; assumption. Qed.

(** The passage through a barrier that is solid on one side, and through
    a Slit. *)
Lemma passage_Left (b : Barrier.t Q) :
  Barrier.type b = Barrier.Left ->
  0.1 <= Barrier.leftToHole b < 0.9 ->
  passage b (Barrier.leftToHole b) 0.9.
Proof.
  intros T R. unfold passage, solid, sideWallWidth. rewrite T. cbn [dec exact].
  split; [to_Q; qlra|].
  split; [exists ((Barrier.leftToHole b + 0.9) * (1 # 2)); to_Q; qlra|].
  to_Q; try qlra. intros x A _. apply negb_false_iff. exact A.
Qed.

Lemma passage_Right (b : Barrier.t Q) (c : Q) :
  Barrier.type b = Barrier.Right ->
  0.1 < c <= 0.9 -> c <= Barrier.leftToHole b ->
  passage b 0.1 c.
Proof.
  intros T R L. unfold passage, solid, sideWallWidth. rewrite T. cbn [dec exact].
  split; [to_Q; qlra|].
  split; [exists ((0.1 + c) * (1 # 2)); to_Q; qlra|].
  to_Q; try qlra. intros x _ C. apply negb_false_iff. to_Q. qlra.
Qed.

Lemma passage_Slit (b : Barrier.t Q) :
  Barrier.type b = Barrier.Slit ->
  0.1 <= Barrier.leftToHole b <= 0.65 ->
  passage b (Barrier.leftToHole b) (Barrier.leftToHole b + 0.25).
Proof.
  intros T R. unfold passage, solid, sideWallWidth, holeWidth. rewrite T.
  cbn [dec exact].
  split; [to_Q; qlra|].
  split; [exists (Barrier.leftToHole b + 0.125); to_Q; qlra|].
  to_Q; try qlra.
  intros x A C. apply negb_false_iff. apply andb_true_iff. split; assumption.
Qed.

Ltac center x0 := exists x0; unfold in_center, holeWidth; to_Q; qlra.

Ltac not_edge :=
  intros (X & Y & _); first [discriminate X | discriminate Y].

Lemma addBarrier_passage l k l' k' :
  Level.addBarrier rnd l k = Ok l' k' ->
  exists prev b,
    back (Level.barriers l) = Some prev /\
    back (Level.barriers l') = Some b /\
    (exists a c,
       passage b a c /\
       (a <? dec 0.6 + holeWidth / dec 2.0)%dbl = true /\
       (dec 0.4 - holeWidth / dec 2.0 <=? c)%dbl = true /\
       (~ (Barrier.type prev = Barrier.Slit /\
           Barrier.type b = Barrier.Right /\
           (Random_double rnd k ==? dec 0.4)%dbl = true) ->
        exists x, (a <? x)%dbl = true /\ (x <? c)%dbl = true /\ in_center x)) /\
    (Barrier.type prev = Barrier.Slit /\
     Barrier.type b = Barrier.Right /\
     (Random_double rnd k ==? dec 0.4)%dbl = true ->
     passage b sideWallWidth (dec 0.4 - holeWidth / dec 2.0)%dbl /\
     forall x, (dec 0.4 - holeWidth / dec 2.0 <=? x)%dbl = true ->
               solid b x = true).
Proof.
  intros E. apply addBarrier_Ok in E.
  destruct E as (prev & ty & lth & B & C & -> & _).
  exists prev. eexists. split; [exact B|].
  split; [cbn; apply back_snoc|].
  pose proof (pos_range k) as P. pose proof half_hole as Hh.
  unfold holeWidth in Hh |- *.
  cbn [Barrier.type].
  destruct C as [ | | ty T].
  - destruct (RandomBool rnd (S k)); (split; [|not_edge]).
    + exists 0.1, (Random_double rnd k).
      split; [apply passage_Right; [reflexivity | lra | cbn; lra]|].
      split; [to_Q; qlra|]. split; [to_Q; qlra|].
      intros _. center 0.3.
    + exists (Random_double rnd k), (Random_double rnd k + 0.25).
      split; [apply passage_Slit; [reflexivity | cbn; lra]|].
      split; [to_Q; qlra|]. split; [to_Q; qlra|].
      intros _. center (Random_double rnd k + 0.1).
  - destruct (RandomBool rnd (S k)); (split; [|not_edge]).
    + exists (1.0 - Random_double rnd k), 0.9.
      split; [apply passage_Left; [reflexivity | cbn; lra]|].
      split; [to_Q; qlra|]. split; [to_Q; qlra|].
      intros _. center 0.7.
    + exists (1.0 - Random_double rnd k), (1.0 - Random_double rnd k + 0.25).
      split; [apply passage_Slit; [reflexivity | cbn; lra]|].
      split; [to_Q; qlra|]. split; [to_Q; qlra|].
      intros _. center (1.0 - Random_double rnd k + 0.1).
  - destruct ty.
    + split; [|not_edge].
      exists (Random_double rnd k - 0.25 / 2.0), 0.9.
      split; [apply passage_Left; [reflexivity | cbn; qlra]|].
      split; [to_Q; qlra|]. split; [to_Q; qlra|].
      intros _. center 0.7.
    + split.
      * exists 0.1, (Random_double rnd k - 0.25 / 2.0).
        split; [apply passage_Right; [reflexivity | qlra | cbn; qlra]|].
        split; [to_Q; qlra|]. split; [to_Q; qlra|].
        intros N.
        assert (0.4 < Random_double rnd k) as S.
        { destruct (Qlt_le_dec 0.4 (Random_double rnd k)) as [S|S]; [exact S|].
          exfalso. apply N. repeat split. cbn [deqb exact dec].
          apply Qeq_bool_iff. lra. }
        center ((0.275 + (Random_double rnd k - 0.25 / 2.0)) * (1 # 2)).
      * intros (_ & _ & X). cbn [deqb exact dec] in X.
        apply Qeq_bool_iff in X. split.
        -- unfold sideWallWidth.
           apply passage_Right; [reflexivity | qlra | cbn; qlra].
        -- intros x Lx. unfold solid. cbn [Barrier.type Barrier.leftToHole].
           apply negb_true_iff. apply not_true_iff_false. intros Y.
           unfold holeWidth in Y. to_Q. qlra.
    + split; [|not_edge].
      exists (Random_double rnd k - 0.25 / 2.0),
             (Random_double rnd k - 0.25 / 2.0 + 0.25).
      split; [apply passage_Slit; [reflexivity | cbn; qlra]|].
      split; [to_Q; qlra|]. split; [to_Q; qlra|].
      intros _. center (Random_double rnd k).
Qed.

End Solvable.

Section Solvable64.
Variable rnd : Oracle float.
Hypothesis contract : in_contract rnd.

Ltac fconst := vm_compute; reflexivity.

Lemma pos_range64 k :
  (0.4 <=? Random_double rnd k)%float = true /\
  (Random_double rnd k <=? 0.6)%float = true.
Proof. destruct (contract k) as (L & U & _). split; assumption. Qed.

(** The passages of the three shapes, between doubles that bound
    [leftToHole]; [m] is a double inside. *)
Lemma passage64_Left (b : Barrier.t float) (a m : float) :
  Barrier.type b = Barrier.Left ->
  (Barrier.leftToHole b <=? a)%float = true ->
  (0.1 <=? a)%float = true -> (a <? 0.9)%float = true ->
  (a <? m)%float = true -> (m <? 0.9)%float = true ->
  passage b a 0.9%float.
Proof.
  intros T L A C M1 M2. unfold passage, solid. rewrite T.
  split; [exact C|]. split; [exists m; split; assumption|].
  split; [exact A|]. split; [fconst|].
  intros x X _. apply negb_false_iff.
  exact (b64_le_lt_trans _ _ _ L X).
Qed.

Lemma passage64_Right (b : Barrier.t float) (c m : float) :
  Barrier.type b = Barrier.Right ->
  (c <=? Barrier.leftToHole b)%float = true ->
  (0.1 <? c)%float = true -> (c <=? 0.9)%float = true ->
  (0.1 <? m)%float = true -> (m <? c)%float = true ->
  passage b 0.1%float c.
Proof.
  intros T L A C M1 M2. unfold passage, solid. rewrite T.
  split; [exact A|]. split; [exists m; split; assumption|].
  split; [fconst|]. split; [exact C|].
  intros x _ X. apply negb_false_iff.
  exact (b64_lt_le_trans _ _ _ X L).
Qed.

Lemma passage64_Slit (b : Barrier.t float) (a c m : float) :
  Barrier.type b = Barrier.Slit ->
  (Barrier.leftToHole b <=? a)%float = true ->
  (c <=? Barrier.leftToHole b + 0.25)%float = true ->
  (a <? c)%float = true ->
  (0.1 <=? a)%float = true -> (c <=? 0.9)%float = true ->
  (a <? m)%float = true -> (m <? c)%float = true ->
  passage b a c.
Proof.
  intros T L U AC A C M1 M2. unfold passage, solid. rewrite T.
  split; [exact AC|]. split; [exists m; split; assumption|].
  split; [exact A|]. split; [exact C|].
  intros x X Y. apply negb_false_iff. apply andb_true_iff. split.
  - exact (b64_le_lt_trans _ _ _ L X).
  - exact (b64_lt_le_trans _ _ _ Y U).
Qed.

(** The hole of a Slit reaches beyond [0.64], [0.63] and [0.52] when
    [leftToHole] is at least [0.4], [0.39] and [0.4 - 0.125]. *)
Lemma slit_edge (a a' x : float) (ea ma ma' : Z) :
  fkey a = Some (1, ea, ma)%Z -> fkey a' = Some (1, -53, ma')%Z ->
  (ea = -54 /\ 2 * ma' <= ma + 2 ^ 52 - 1 /\ ma < 2 ^ 53)%Z ->
  (0.25 <=? a)%float = true ->
  (a <=? x)%float = true -> (x <=? 0.74)%float = true ->
  (a' <=? x + 0.25)%float = true.
Proof.
  intros Ka Ka' C. apply (b64_add_quarter a a' x ea ma ma' Ka Ka').
  left. exact C.
Qed.

(** A double that [==] finds equal to 0.4 is the double 0.4. *)
Lemma b64_eqb_04 (x : float) : (x =? 0.4)%float = true -> x = 0.4%float.
Proof.
  intros E. apply b64_eqb_key in E. destruct E as (a & X & C).
  kconst 0.4%float. rewrite K in C. injection C as <-.
  destruct (finite_key x _ _ X ltac:(lia)) as (mx & Px & Mx & _).
  destruct (finite_key 0.4%float _ _ K ltac:(lia)) as (mc & Pc & Mc & _).
  apply Prim2SF_inj. rewrite Px, Pc. f_equal. lia.
Qed.

Ltac center x0 := exists x0; unfold in_center; repeat split; fconst.

Ltac not_edge :=
  intros (X & Y & _); first [discriminate X | discriminate Y].

Lemma addBarrier_passage64 l k l' k' :
  Level.addBarrier rnd l k = Ok l' k' ->
  exists prev b,
    back (Level.barriers l) = Some prev /\
    back (Level.barriers l') = Some b /\
    (exists a c,
       passage b a c /\
       (a <? dec 0.6 + holeWidth / dec 2.0)%dbl = true /\
       (dec 0.4 - holeWidth / dec 2.0 <=? c)%dbl = true /\
       (~ (Barrier.type prev = Barrier.Slit /\
           Barrier.type b = Barrier.Right /\
           (Random_double rnd k ==? dec 0.4)%dbl = true) ->
        exists x, (a <? x)%dbl = true /\ (x <? c)%dbl = true /\ in_center x)) /\
    (Barrier.type prev = Barrier.Slit /\
     Barrier.type b = Barrier.Right /\
     (Random_double rnd k ==? dec 0.4)%dbl = true ->
     passage b sideWallWidth (dec 0.4 - holeWidth / dec 2.0)%dbl /\
     forall x, (dec 0.4 - holeWidth / dec 2.0 <=? x)%dbl = true ->
               solid b x = true).
Proof.
  intros E. apply addBarrier_Ok in E.
  destruct E as (prev & ty & lth & B & C & -> & _).
  exists prev. eexists. split; [exact B|].
  split; [cbn; apply back_snoc|].
  destruct (pos_range64 k) as [L U].
  destruct (b64_one_minus _ L U) as [L1 U1].
  destruct (b64_sub_eighth _ L U) as (L2 & U2 & S2).
  cbn [Barrier.type].
  destruct C as [ | | ty T].
  - destruct (RandomBool rnd (S k)); (split; [|not_edge]).
    + exists 0.1%float, 0.4%float.
      split; [apply (@passage64_Right _ 0.4%float 0.3%float);
              [reflexivity | exact L | fconst | fconst | fconst | fconst]|].
      split; [fconst|]. split; [fconst|].
      intros _. center 0.3%float.
    + exists 0.6%float, 0.64%float.
      split.
      { apply (@passage64_Slit _ 0.6%float 0.64%float 0.62%float);
          [reflexivity | exact U | | fconst | fconst | fconst | fconst | fconst].
        kconst 0.4%float. kconst 0.64%float.
        eapply (@slit_edge _ _ _ _ _ _ K K0); [lia | fconst | exact L |].
        eapply b64_le_trans; [exact U | fconst]. }
      split; [fconst|]. split; [fconst|].
      intros _. center 0.62%float.
  - destruct (RandomBool rnd (S k)); (split; [|not_edge]).
    + exists 0.61%float, 0.9%float.
      split; [apply (@passage64_Left _ 0.61%float 0.7%float);
              [reflexivity | exact U1 | fconst | fconst | fconst | fconst]|].
      split; [fconst|]. split; [fconst|].
      intros _. center 0.7%float.
    + exists 0.61%float, 0.63%float.
      split.
      { apply (@passage64_Slit _ 0.61%float 0.63%float 0.62%float);
          [reflexivity | exact U1 | | fconst | fconst | fconst | fconst | fconst].
        kconst 0.39%float. kconst 0.63%float.
        eapply (@slit_edge _ _ _ _ _ _ K K0); [lia | fconst | exact L1 |].
        eapply b64_le_trans; [exact U1 | fconst]. }
      split; [fconst|]. split; [fconst|].
      intros _. center 0.62%float.
  - destruct ty.
    + split; [|not_edge].
      exists 0.48%float, 0.9%float.
      split; [apply (@passage64_Left _ 0.48%float 0.7%float);
              [reflexivity | exact U2 | fconst | fconst | fconst | fconst]|].
      split; [fconst|]. split; [fconst|].
      intros _. center 0.7%float.
    + assert ((0.2 <? Random_double rnd k - 0.125)%float = true) as In2.
      { eapply b64_lt_le_trans; [|exact L2]. fconst. }
      split.
      * exists 0.1%float, (Random_double rnd k - 0.125)%float.
        split.
        { apply (@passage64_Right _ (Random_double rnd k - 0.125)%float 0.2%float);
            [reflexivity | | | | fconst | exact In2].
          - apply leb_key. apply leb_key in U2.
            destruct U2 as (a & b & A & _ & _). exists a, a.
            repeat split; try assumption. right. reflexivity.
          - eapply b64_lt_le_trans; [|exact L2]. fconst.
          - eapply b64_le_trans; [exact U2 | fconst]. }
        split; [fconst|]. split; [exact L2|].
        intros N.
        assert ((0.4 <? Random_double rnd k)%float = true) as S.
        { apply b64_le_neq_lt; [exact L|]. intros X. apply N.
          repeat split. exact X. }
        exists (0.4 - 0.125)%float. split; [fconst|]. split; [exact (S2 S)|].
        unfold in_center. split; fconst.
      * intros (_ & _ & X). apply b64_eqb_04 in X. rewrite X. split.
        -- apply (@passage64_Right _ (0.4 - 0.125)%float 0.2%float); fconst.
        -- intros x Lx. unfold solid. cbn [Barrier.type Barrier.leftToHole].
           apply negb_true_iff.
           match goal with
           | |- ?t = false => destruct t eqn:Y; [|reflexivity]
           end.
           apply b64_ltb_not_leb in Y.
           change ((dec 0.4 - holeWidth / dec 2.0 <=? x)%dbl = false) in Y.
           rewrite Lx in Y. discriminate Y.
    + split; [|not_edge].
      exists 0.48%float, 0.52%float.
      split.
      { apply (@passage64_Slit _ 0.48%float 0.52%float 0.5%float);
          [reflexivity | exact U2 | | fconst | fconst | fconst | fconst | fconst].
        kconst (0.4 - 0.125)%float. kconst 0.52%float.
        eapply (@slit_edge _ _ _ _ _ _ K K0); [lia | fconst | exact L2 |].
        eapply b64_le_trans; [exact U2 | fconst]. }
      split; [fconst|]. split; [fconst|].
      intros _. center 0.5%float.
Qed.

End Solvable64.

(** C8, amended.  [hit] is the conjunction of the horizontal test [solid]
    and the vertical test.  With draws in their ranges, every barrier
    [addBarrier] appends has a passage: an open interval between the side
    walls that holds a double and on which [solid] is false.  The passage
    starts below the upper edge of the centre band and ends at or above its
    lower edge, and it intersects the band unless the barrier is a Right
    one behind a Slit drawn with [pos = 0.4].  That one has the passage
    from the side wall to the lower edge of the band and is solid from
    that edge on.  This holds in the arithmetic of the program and in
    exact arithmetic. *)
Theorem C8_solvable :
  (forall D (ops : Double D) (b : Barrier.t D) (x : D),
     Barrier.hit b x = solid b x && overlaps b) /\
  (forall (rnd : Oracle float) l k l' k',
     in_contract rnd ->
     Level.addBarrier rnd l k = Ok l' k' ->
     exists prev b,
       back (Level.barriers l) = Some prev /\
       back (Level.barriers l') = Some b /\
       (exists a c,
          passage b a c /\
          (a <? dec 0.6 + holeWidth / dec 2.0)%dbl = true /\
          (dec 0.4 - holeWidth / dec 2.0 <=? c)%dbl = true) /\
       (~ (Barrier.type prev = Barrier.Slit /\
           Barrier.type b = Barrier.Right /\
           (Random_double rnd k ==? dec 0.4)%dbl = true) ->
        solvable b) /\
       (Barrier.type prev = Barrier.Slit /\
        Barrier.type b = Barrier.Right /\
        (Random_double rnd k ==? dec 0.4)%dbl = true ->
        passage b sideWallWidth (dec 0.4 - holeWidth / dec 2.0)%dbl /\
        forall x, (dec 0.4 - holeWidth / dec 2.0 <=? x)%dbl = true ->
                  solid b x = true)) /\
  (forall (rnd : Oracle Q) l k l' k',
     in_contract rnd ->
     Level.addBarrier rnd l k = Ok l' k' ->
     exists prev b,
       back (Level.barriers l) = Some prev /\
       back (Level.barriers l') = Some b /\
       (exists a c,
          passage b a c /\
          (a <? dec 0.6 + holeWidth / dec 2.0)%dbl = true /\
          (dec 0.4 - holeWidth / dec 2.0 <=? c)%dbl = true) /\
       (~ (Barrier.type prev = Barrier.Slit /\
           Barrier.type b = Barrier.Right /\
           (Random_double rnd k ==? dec 0.4)%dbl = true) ->
        solvable b) /\
       (Barrier.type prev = Barrier.Slit /\
        Barrier.type b = Barrier.Right /\
        (Random_double rnd k ==? dec 0.4)%dbl = true ->
        passage b sideWallWidth (dec 0.4 - holeWidth / dec 2.0)%dbl /\
        forall x, (dec 0.4 - holeWidth / dec 2.0 <=? x)%dbl = true ->
                  solid b x = true)).
Proof.
  split; [|split].
  - intros D ops b x. apply Barrier_hit_solid.
  - intros rnd l k l' k' C E.
    destruct (addBarrier_passage64 C _ _ E)
      as (prev & b & B & B' & (a & c & P & U & L & X) & Edge).
    exists prev, b. split; [exact B|]. split; [exact B'|]. split; [|split].
    + exists a, c. split; [exact P|]. split; [exact U | exact L].
    + intros N. exists a, c. split; [exact P|]. exact (X N).
    + exact Edge.
  - intros rnd l k l' k' C E.
    destruct (addBarrier_passage C _ _ E)
      as (prev & b & B & B' & (a & c & P & U & L & X) & Edge).
    exists prev, b. split; [exact B|]. split; [exact B'|]. split; [|split].
    + exists a, c. split; [exact P|]. split; [exact U | exact L].
    + intros N. exists a, c. split; [exact P|]. exact (X N).
    + exact Edge.
Qed.

Lemma C8_solvable_witness :
  exists prev b : Barrier.t float,
    back (Level.barriers Level.initial) = Some prev /\
    back (Level.barriers (level_of (Level.addBarrier rnd_edge Level.initial 0)))
      = Some b /\
    (exists a c,
       passage b a c /\
       (a <? dec 0.6 + holeWidth / dec 2.0)%dbl = true /\
       (dec 0.4 - holeWidth / dec 2.0 <=? c)%dbl = true) /\
    (~ (Barrier.type prev = Barrier.Slit /\
        Barrier.type b = Barrier.Right /\
        (Random_double (rnd_edge : Oracle float) 0 ==? dec 0.4)%dbl = true) ->
     solvable b) /\
    (Barrier.type prev = Barrier.Slit /\
     Barrier.type b = Barrier.Right /\
     (Random_double (rnd_edge : Oracle float) 0 ==? dec 0.4)%dbl = true ->
     passage b sideWallWidth (dec 0.4 - holeWidth / dec 2.0)%dbl /\
     forall x, (dec 0.4 - holeWidth / dec 2.0 <=? x)%dbl = true ->
               solid b x = true).
Proof.
  apply (proj1 (proj2 C8_solvable) rnd_edge Level.initial 0
           (level_of (Level.addBarrier rnd_edge Level.initial 0)) 2).
  - intros k. split; [vm_compute; reflexivity|].
    split; [vm_compute; reflexivity|]. cbn. lia.
  - vm_compute. reflexivity.
Defined.

(** * Further properties of the code *)

(** ** A fresh level cannot be hit between the walls *)

Lemma new64_overlaps (rnd : Oracle float) fuel k l k' :
  Level.new rnd fuel k = Ok l k' ->
  Forall (fun b => overlaps b = false) (Level.barriers l).
Proof.
  intros E. apply (@new_barriers _ _ rnd loop0_64 loop1_64 loop2_64) in E.
  destruct E as (_ & ty1 & lth1 & ty2 & lth2 & ->).
  repeat constructor; vm_compute; reflexivity.
Qed.

Lemma no_overlap_hit D `{Double D} (l : Level.t D) (posX : D) :
  Forall (fun b => overlaps b = false) (Level.barriers l) ->
  Level.hit l posX
  = ((posX <? sideWallWidth) || (posX >? dec 1.0 - sideWallWidth))%dbl.
Proof.
  intros F. unfold Level.hit.
  destruct ((posX <? sideWallWidth) || (posX >? dec 1.0 - sideWallWidth))%dbl;
    [reflexivity|].
  induction F as [|b q O _ IH]; [reflexivity|].
  cbn [existsb]. rewrite IH, Barrier_hit_solid, O.
  destruct (solid b posX); reflexivity.
Qed.

(** X1.  In the arithmetic of the program, a level that [Level()] has just
    built has no barrier at the height of the token (its barriers are at
    [yPos] 1.0, 1.5 and 2.0): [hit(posX)] is true exactly when [posX] is
    beyond a side wall, [posX < 0.1] or [posX > 0.9], whatever the random
    source has drawn; the starting position 0.5 of the token is not hit. *)
Theorem X1_fresh_level_walls_only (rnd : Oracle float) fuel k l k' :
  Level.new rnd fuel k = Ok l k' ->
  (forall posX : float,
     Level.hit l posX = (posX <? 0.1)%float || (0.9 <? posX)%float) /\
  Level.hit l (dec 0.5) = false.
Proof.
  intros E. apply new64_overlaps in E.
  split.
  - intros posX. rewrite (@no_overlap_hit _ _ l posX E). reflexivity.
  - rewrite (@no_overlap_hit _ _ l (dec 0.5) E). vm_compute. reflexivity.
Qed.

Lemma X1_fresh_level_walls_only_witness :
  (forall posX : float,
     Level.hit fresh64 posX = (posX <? 0.1)%float || (0.9 <? posX)%float) /\
  Level.hit fresh64 (dec 0.5) = false.
Proof.
  apply (@X1_fresh_level_walls_only rnd64 2 0 fresh64 4).
  vm_compute. reflexivity.
Defined.

(** ** The mileage is the sum of the steps *)

Section Mileage.
Context {D : Type} `{Double D}.
Variable rnd : Oracle D.
Open Scope double_scope.

Lemma addBarrier_mileage l k l' k' :
  Level.addBarrier rnd l k = Ok l' k' -> Level.mileage l' = Level.mileage l.
Proof.
  intros E. apply addBarrier_Ok in E.
  destruct E as (prev & ty & lth & _ & _ & -> & _). reflexivity.
Qed.

Lemma fill_mileage fuel : forall height l k l' k',
  Level.fill rnd fuel height l k = Ok l' k' ->
  Level.mileage l' = Level.mileage l.
Proof.
  induction fuel as [|fuel IH]; intros height l k l' k' E; cbn in E;
    destruct (height <? dec 1.0).
  - discriminate.
  - inv_run. reflexivity.
  - inv_run. rewrite (IH _ _ _ _ _ E1). eapply addBarrier_mileage; eassumption.
  - inv_run. reflexivity.
Qed.

Lemma update_mileage speedY l k l' k' :
  Level.update rnd speedY l k = Ok l' k' ->
  Level.mileage l' = Level.mileage l + speedY.
Proof.
  intros E. apply update_Ok in E.
  destruct E as (first & rest & _ & [(_ & -> & _) | (_ & E)]).
  - reflexivity.
  - apply addBarrier_mileage in E. exact E.
Qed.

Lemma update_each_mileage speeds : forall l k l' k',
  update_each rnd speeds l k = Ok l' k' ->
  Level.mileage l' = fold_left dadd speeds (Level.mileage l).
Proof.
  induction speeds as [|s rest IH]; intros l k l' k' E; cbn in E.
  - inv_run. reflexivity.
  - inv_run. rewrite (IH _ _ _ _ E1). cbn [fold_left].
    rewrite (update_mileage _ _ _ E0). reflexivity.
Qed.

End Mileage.

(** X2.  In every arithmetic of [double]: [Level()] starts with mileage
    0.0, whatever it draws; one [update(speedY)] adds [speedY] to the
    mileage, whether or not it replaces a barrier; so after a run of
    updates [getMileage()] is the sum of the steps, added from left to right
    to the mileage before. *)
Theorem X2_mileage_sum D (ops : Double D) (rnd : Oracle D) :
  (forall fuel k l k',
     Level.new rnd fuel k = Ok l k' -> Level.getMileage l = dec 0.0) /\
  (forall speedY l k l' k',
     Level.update rnd speedY l k = Ok l' k' ->
     Level.getMileage l' = (Level.getMileage l + speedY)%dbl) /\
  (forall speeds l k l' k',
     update_each rnd speeds l k = Ok l' k' ->
     Level.getMileage l' = fold_left dadd speeds (Level.getMileage l)).
Proof.
  split; [|split].
  - intros fuel k l k' E. unfold Level.new in E.
    apply fill_mileage in E. exact E.
  - intros speedY l k l' k'. apply update_mileage.
  - intros speeds l k l' k'. apply update_each_mileage.
Qed.

Lemma X2_mileage_sum_witness :
  Level.getMileage
    (level_of (update_each rnd64 [dec 0.005; dec 0.005; dec 2.0] fresh64 4))
  = fold_left dadd [dec 0.005; dec 0.005; dec 2.0] (Level.getMileage fresh64).
Proof.
  apply (proj2 (proj2 (@X2_mileage_sum _ _ rnd64))
           [dec 0.005; dec 0.005; dec 2.0] fresh64 4 _ 6).
  vm_compute. reflexivity.
Defined.

(** ** The range of [leftToHole] *)

Section OneMinus.
Local Open Scope Z_scope.

(** [1.0 - pos] for [pos] in [0.4, 0.6] is in [0.4, 0.6] again: the
    doubles 0.4 and 0.6 add up to 1.0. *)
Lemma b64_one_minus_range (pos : float) :
  (0.4 <=? pos)%float = true -> (pos <=? 0.6)%float = true ->
  (0.4 <=? 1 - pos)%float = true /\ (1 - pos <=? 0.6)%float = true.
Proof.
  intros L U. kconst 0.4%float. kconst 0.6%float.
  destruct (@between_key _ _ pos _ _ _ _ K K0 ltac:(lia) L U)
    as (e & mx & P & R & Lo & Hi).
  assert (e = -54 \/ e = -53) as [-> | ->] by lia.
  - destruct (one_minus_54 mx ltac:(lia)) as (m' & E & M').
    assert (Prim2SF (1 - pos)%float = S754_finite false m' (-53)) as P'.
    { rewrite sub_spec, P. exact E. }
    apply fkey_finite in P'. split.
    + eapply leb_of_key; [exact K | exact P' | lia].
    + eapply leb_of_key; [exact P' | exact K0 | lia].
  - destruct (one_minus_53 mx ltac:(lia)) as (m' & e' & E & M' & R').
    assert (Prim2SF (1 - pos)%float = S754_finite false m' e') as P'.
    { rewrite sub_spec, P. exact E. }
    apply fkey_finite in P'. split.
    + eapply leb_of_key; [exact K | exact P' | lia].
    + eapply leb_of_key; [exact P' | exact K0 | lia].
Qed.

End OneMinus.

Section HoleRange.
Context {D : Type} `{Double D}.
Variable rnd : Oracle D.

(** What the three branches of [addBarrier] give for a draw in its
    range. *)
Hypothesis chosen_in_range :
  forall k prev ty lth,
    chosen rnd k prev ty lth ->
    leftToHole_in_range (Barrier.Build ty lth (dec 0.0) (dec 0.0)).
Hypothesis initial_in_range :
  leftToHole_in_range
    (Barrier.Build Barrier.Slit (dec 0.5 - holeWidth / dec 2.0)%dbl
       initialBarrierHeight (dec 1.0) : Barrier.t D).

Lemma reachable_leftToHole l k :
  reachable rnd l k -> Forall leftToHole_in_range (Level.barriers l).
Proof.
  apply reachable_inv with
    (P := fun l => Forall leftToHole_in_range (Level.barriers l)).
  - repeat constructor; apply initial_in_range.
  - intros l0 k0 l' k' F E. apply addBarrier_Ok in E.
    destruct E as (prev & ty & lth & _ & C & -> & _).
    cbn [Level.barriers]. apply Forall_app. split; [exact F|].
    repeat constructor; apply (chosen_in_range C).
  - intros l0 speedY F. cbn [Level.barriers]. apply Forall_map.
    revert F. apply Forall_impl. intros b X. exact X.
  - intros first rest m F. cbn [Level.barriers] in *.
    apply Forall_inv_tail in F. exact F.
Qed.

End HoleRange.

Lemma chosen_in_range64 (rnd : Oracle float) :
  in_contract rnd ->
  forall k prev ty lth,
    chosen rnd k prev ty lth ->
    leftToHole_in_range (Barrier.Build ty lth (dec 0.0) (dec 0.0)).
Proof.
  intros C k prev ty lth X. destruct (C k) as (L & U & _).
  change ((0.4 <=? Random_double rnd k)%float = true) in L.
  change ((Random_double rnd k <=? 0.6)%float = true) in U.
  unfold leftToHole_in_range. cbn [Barrier.leftToHole].
  destruct X as [ | | ty T].
  - split; [|exact U].
    eapply b64_le_trans; [|exact L]. vm_compute. reflexivity.
  - destruct (@b64_one_minus_range _ L U) as [L1 U1]. split; [|exact U1].
    eapply b64_le_trans; [|exact L1]. vm_compute. reflexivity.
  - destruct (b64_sub_eighth _ L U) as (L2 & U2 & _). split; [exact L2|].
    eapply b64_le_trans; [exact U2|]. vm_compute. reflexivity.
Qed.

Lemma chosen_in_rangeQ (rnd : Oracle Q) :
  in_contract rnd ->
  forall k prev ty lth,
    chosen rnd k prev ty lth ->
    leftToHole_in_range (Barrier.Build ty lth (dec 0.0) (dec 0.0)).
Proof.
  intros C k prev ty lth X. destruct (C k) as (L & U & _).
  apply exact_leb in L, U. pose proof half_hole as Hh.
  unfold leftToHole_in_range. cbn [Barrier.leftToHole].
  rewrite !exact_leb.
  destruct X as [ | | ty T]; unfold holeWidth in *;
    cbn [dadd dsub dmul ddiv dopp dec exact] in *; lra.
Qed.

(** X6.  With draws in their ranges, every barrier of every reachable
    level has its [leftToHole] between [0.4 - holeWidth / 2] and [0.6]
    (the doubles 0.27500000000000002 and 0.6 in the arithmetic of the
    program, 0.275 and 0.6 in exact arithmetic), whatever its type and
    the type of the barrier before it. *)
Theorem X6_leftToHole_range :
  (forall (rnd : Oracle float) l k,
     in_contract rnd -> reachable rnd l k ->
     Forall leftToHole_in_range (Level.barriers l)) /\
  (forall (rnd : Oracle Q) l k,
     in_contract rnd -> reachable rnd l k ->
     Forall leftToHole_in_range (Level.barriers l)) /\
  (@dec float _ 0.4 - holeWidth / dec 2.0)%dbl = 0.27500000000000002%float.
Proof.
  split; [|split].
  - intros rnd l k C. apply reachable_leftToHole.
    + apply chosen_in_range64. exact C.
    + split; vm_compute; reflexivity.
  - intros rnd l k C. apply reachable_leftToHole.
    + apply chosen_in_rangeQ. exact C.
    + split; vm_compute; reflexivity.
  - vm_compute. reflexivity.
Qed.

Lemma X6_leftToHole_range_witness :
  Forall leftToHole_in_range (Level.barriers tick64).
Proof.
  apply (proj1 X6_leftToHole_range rnd64 tick64 4).
  - intros k. split; [vm_compute; reflexivity|].
    split; [vm_compute; reflexivity|]. cbn. lia.
  - exact tick64_reachable.
Defined.

(** ** A barrier that can be hit is visible *)

Section SumSign.
Local Open Scope Z_scope.

Lemma valid_bounds (s : bool) (m : positive) (e : Z) :
  SpecFloat.valid_binary prec emax (S754_finite s m e) = true ->
  -1074 <= e /\ Z.pos m < 2 ^ 53 /\ (-1074 < e -> 2 ^ 52 <= Z.pos m).
Proof.
  cbn [SpecFloat.valid_binary]. unfold bounded, canonical_mantissa. intros V.
  apply andb_true_iff in V. destruct V as [C _]. apply Z.eqb_eq in C.
  unfold fexp, SpecFloat.emin, prec, emax in C.
  pose proof (digits2_bounds m) as B.
  set (d := Z.pos (digits2_pos m)) in *.
  assert (1 <= d) as D1 by (unfold d; lia).
  split; [lia|]. split.
  - assert (d <= 53) as D53 by lia.
    assert (2 ^ d <= 2 ^ 53) by (apply Z.pow_le_mono_r; lia). lia.
  - intros E. assert (d = 53) as D53 by lia. rewrite D53 in B.
    replace (53 - 1) with 52 in B by lia. lia.
Qed.

Lemma shl_align_value (m : positive) (e e' : Z) :
  e' <= e -> Z.pos (fst (shl_align m e e')) = Z.pos m * 2 ^ (e - e').
Proof.
  intros L. unfold shl_align.
  destruct (e' - e) as [|d|d] eqn:E; try lia.
  - replace (e - e') with 0 by lia. cbn [fst]. lia.
  - cbn [fst]. change (Pos.iter xO m d) with (shift_pos d m).
    rewrite shift_pos_correct. replace (e - e') with (Z.pos d) by lia.
    change (Z.pow_pos 2 d) with (2 ^ Z.pos d). lia.
Qed.

(** Rounding keeps the sign: what [binary_normalize] makes of an integer
    that is not positive is not a positive double. *)
Lemma normalize_not_positive (z e : Z) (k : Z * Z * Z) :
  z <= 0 ->
  key (binary_normalize prec emax z e false) = Some k -> fst (fst k) <= 0.
Proof.
  intros L. destruct z as [|p|p]; try lia; cbn [binary_normalize].
  - cbn [key]. intros E. injection E as <-. cbn. lia.
  - unfold binary_round.
    destruct (shl_align p e _) as [mz ez]. unfold binary_round_aux.
    destruct (shr_fexp prec emax (Z.pos mz) ez loc_Exact) as [mrs' e'].
    destruct (shr_fexp prec emax _ e' loc_Exact) as [mrs'' e''].
    destruct (shr_m mrs'') as [|m|m]; cbn [key]; try discriminate.
    + intros E. injection E as <-. cbn. lia.
    + destruct (e'' <=? emax - prec); cbn [key]; intros E; injection E as <-;
        cbn; lia.
Qed.

(** If the sum [y + h] of two doubles is a positive double, then
    [- h < y]. *)
Lemma SFadd_positive (y h : spec_float) (k : Z * Z * Z) :
  SpecFloat.valid_binary prec emax y = true ->
  SpecFloat.valid_binary prec emax h = true ->
  key (SFadd prec emax y h) = Some k -> 1 <= fst (fst k) ->
  exists a b, key (SFopp h) = Some a /\ key y = Some b /\ lt3 a b.
Proof.
  intros Vy Vh K P.
  destruct y as [sy | sy | | sy my ey], h as [sh | sh | | sh mh eh];
    cbn [SFadd] in K; try discriminate K;
    try solve [
      repeat match goal with s : bool |- _ => destruct s end;
      cbn [key] in K; try discriminate K; injection K as <-;
      cbn [fst snd] in P;
      first [ exfalso; lia
            | eexists _, _; split; [reflexivity|]; split; [reflexivity|];
              unfold lt3; cbn; lia ] ].
  cbv zeta in K.
  destruct (@valid_bounds _ _ _ Vy) as (Ey & Uy & Ly).
  destruct (@valid_bounds _ _ _ Vh) as (Eh & Uh & Lh).
  set (ez := Z.min ey eh) in *.
  assert (0 < cond_Zopp sy (Z.pos (fst (shl_align my ey ez)))
              + cond_Zopp sh (Z.pos (fst (shl_align mh eh ez)))) as S.
  { destruct (Z_lt_le_dec 0 (cond_Zopp sy (Z.pos (fst (shl_align my ey ez)))
              + cond_Zopp sh (Z.pos (fst (shl_align mh eh ez))))) as [X | X];
      [exact X|].
    pose proof (@normalize_not_positive _ _ _ X K). lia. }
  rewrite !shl_align_value in S by (unfold ez; lia).
  assert (0 < 2 ^ (ey - ez)) as Py by (apply Z.pow_pos_nonneg; unfold ez; lia).
  assert (0 < 2 ^ (eh - ez)) as Ph by (apply Z.pow_pos_nonneg; unfold ez; lia).
  destruct sy, sh; cbn [SFopp negb key cond_Zopp] in *;
    (eexists _, _; split; [reflexivity|]; split; [reflexivity|]);
    unfold lt3; cbn [fst snd].
  - exfalso. nia.
  - right. split; [reflexivity|].
    destruct (Z.lt_trichotomy ey eh) as [L | [E | L]].
    + left. lia.
    + right. split; [lia|]. subst eh. unfold ez in S.
      rewrite Z.min_id, Z.sub_diag in S. change (2 ^ 0) with 1 in S. lia.
    + exfalso. unfold ez in *. rewrite Z.min_r in * by lia.
      rewrite Z.sub_diag in S.
      assert (2 <= 2 ^ (ey - eh)).
      { change 2 with (2 ^ 1) at 1. apply Z.pow_le_mono_r; lia. }
      specialize (Ly ltac:(lia)). change (2 ^ 0) with 1 in S. nia.
  - right. split; [reflexivity|].
    destruct (Z.lt_trichotomy eh ey) as [L | [E | L]].
    + left. lia.
    + right. split; [lia|]. subst eh. unfold ez in S.
      rewrite Z.min_id, Z.sub_diag in S. change (2 ^ 0) with 1 in S. lia.
    + exfalso. unfold ez in *. rewrite Z.min_l in * by lia.
      rewrite Z.sub_diag in S.
      assert (2 <= 2 ^ (eh - ey)).
      { change 2 with (2 ^ 1) at 1. apply Z.pow_le_mono_r; lia. }
      specialize (Lh ltac:(lia)). change (2 ^ 0) with 1 in S. nia.
  - left. lia.
Qed.

Lemma b64_sum_positive (c y h : float) (e m : Z) :
  fkey c = Some (1, e, m) ->
  (c <=? y + h)%float = true -> (- h <? y)%float = true.
Proof.
  intros Kc L. apply leb_key in L. destruct L as (a & b & A & B & L).
  rewrite Kc in A. injection A as <-.
  unfold fkey in B. rewrite add_spec in B.
  assert (1 <= fst (fst b)) as P.
  { destruct b as [[b1 b2] b3]. unfold le3, lt3 in L. cbn [fst snd] in *.
    destruct L as [L | L]; [lia | injection L as L1 L2 L3; lia]. }
  destruct (@SFadd_positive _ _ _ (Prim2SF_valid y) (Prim2SF_valid h) B P)
    as (a' & b' & A' & B' & Lt).
  apply ltb_key. exists a', b'. unfold fkey. rewrite opp_spec.
  repeat split; assumption.
Qed.

End SumSign.

Lemma hit_visible64 (b : Barrier.t float) (x : float) :
  Barrier.hit b x = true -> Barrier.isVisible b = true.
Proof.
  rewrite Barrier_hit_solid. intros E. apply andb_true_iff in E.
  destruct E as [_ O]. unfold overlaps in O. apply andb_true_iff in O.
  destruct O as [_ O]. unfold Barrier.isVisible.
  kconst (@playerPosY float _).
  exact (@b64_sum_positive _ _ _ _ _ K O).
Qed.

Lemma overlaps_exact (b : Barrier.t Q) :
  overlaps b = true <->
  (Barrier.yPos b <= 0.2 /\ 0.2 <= Barrier.yPos b + Barrier.height b)%Q.
Proof.
  unfold overlaps, playerPosY. rewrite andb_true_iff, !exact_leb. reflexivity.
Qed.

Lemma hit_visibleQ (b : Barrier.t Q) (x : Q) :
  Barrier.hit b x = true -> Barrier.isVisible b = true.
Proof.
  rewrite Barrier_hit_solid. intros E. apply andb_true_iff in E.
  destruct E as [_ O]. apply overlaps_exact in O.
  unfold Barrier.isVisible. apply exact_ltb.
  cbn [dopp exact]. lra.
Qed.

Section KeepsHittable.
Context {D : Type} `{Double D}.
Variable rnd : Oracle D.
Hypothesis hit_visible :
  forall (b : Barrier.t D) x, Barrier.hit b x = true -> Barrier.isVisible b = true.

Lemma update_keeps_hittable speedY l k l' k' b x :
  Level.update rnd speedY l k = Ok l' k' ->
  In b (Level.barriers l) ->
  Barrier.hit (shift speedY b) x = true ->
  In (shift speedY b) (Level.barriers l').
Proof.
  intros E I Hb. apply update_Ok in E.
  destruct E as (first & rest & S & [(_ & -> & _) | (V & E)]).
  - cbn [Level.barriers]. rewrite <- S. apply in_map. exact I.
  - apply addBarrier_Ok in E.
    destruct E as (prev & ty & lth & _ & _ & -> & _).
    cbn [Level.barriers]. apply in_or_app. left.
    apply (in_map (shift speedY)) in I. rewrite S in I.
    destruct I as [I | I]; [|exact I].
    subst first. rewrite (hit_visible _ _ Hb) in V. discriminate V.
Qed.

End KeepsHittable.

(** X7.  A barrier that [hit] is true of (at some [x]) is visible, for
    all doubles in the arithmetic of the program (when [yPos + height] is
    at least 0.2, rounded as it is, [yPos > -height]), and in exact
    arithmetic.  So [update] never removes a barrier that can be hit where
    [update] has moved it to: such a barrier is still in the level
    afterwards. *)
Theorem X7_hit_is_visible :
  (forall (b : Barrier.t float) x,
     Barrier.hit b x = true -> Barrier.isVisible b = true) /\
  (forall (b : Barrier.t Q) x,
     Barrier.hit b x = true -> Barrier.isVisible b = true) /\
  (forall (rnd : Oracle float) speedY l k l' k' b x,
     Level.update rnd speedY l k = Ok l' k' ->
     In b (Level.barriers l) ->
     Barrier.hit (shift speedY b) x = true ->
     In (shift speedY b) (Level.barriers l')) /\
  (forall (rnd : Oracle Q) speedY l k l' k' b x,
     Level.update rnd speedY l k = Ok l' k' ->
     In b (Level.barriers l) ->
     Barrier.hit (shift speedY b) x = true ->
     In (shift speedY b) (Level.barriers l')).
Proof.
  split; [exact hit_visible64|]. split; [exact hit_visibleQ|]. split.
  - intros rnd. apply update_keeps_hittable. exact hit_visible64.
  - intros rnd. apply update_keeps_hittable. exact hit_visibleQ.
Qed.

Lemma X7_hit_is_visible_witness : Barrier.isVisible slit64 = true.
Proof.
  apply (proj1 X7_hit_is_visible slit64 (dec 0.2)). vm_compute. reflexivity.
Defined.

(** ** Steering, lines 222-240 *)

Lemma checked_int_Some (z : Z) :
  (-3 - 1 <= z <= 3 + 1)%Z -> checked_int z = Some z.
Proof.
  intros R. unfold checked_int, in_int_range, INT_MIN, INT_MAX.
  replace (- 2 ^ 31 <=? z)%Z with true by (symmetry; apply Z.leb_le; lia).
  replace (z <=? 2 ^ 31 - 1)%Z with true by (symmetry; apply Z.leb_le; lia).
  reflexivity.
Qed.

Section Steering.
Context {D : Type} `{Double D}.
Variable Pi : D.
Open Scope double_scope.

Lemma angles_at (i : Z) :
  (0 <= i <= 3)%Z ->
  exists a, nth_error (Playing.angles Pi) (Z.to_nat i) = Some a /\
            In a (Playing.angles Pi).
Proof.
  intros R. assert (i = 0 \/ i = 1 \/ i = 2 \/ i = 3)%Z as [-> | [-> | [-> | ->]]]
    by lia; eexists; (split; [reflexivity|]); cbn; tauto.
Qed.

Lemma steer_Ok inp direction targetAngle k :
  (-3 <= direction <= 3)%Z ->
  exists direction' targetAngle',
    Playing.steer Pi inp direction targetAngle k
    = Ok (direction', targetAngle') k /\
    direction' =
      (if xorb (Playing.keyLeft inp) (Playing.keyRight inp) then
         if Playing.keyLeft inp then Z.max (direction - 1) (-3)
         else Z.min (direction + 1) 3
       else direction) /\
    (if xorb (Playing.keyLeft inp) (Playing.keyRight inp) then
       exists a, nth_error (Playing.angles Pi) (Z.abs_nat direction') = Some a /\
                 targetAngle'
                 = of_int (if (0 <? direction')%Z then 1%Z else (-1)%Z) * a
     else targetAngle' = targetAngle).
Proof.
  intros R. unfold Playing.steer. cbv zeta.
  destruct (Playing.keyLeft inp), (Playing.keyRight inp); cbn [xorb].
  - eexists _, _. split; [reflexivity|]. split; reflexivity.
  - rewrite (@checked_int_Some (direction - 1)%Z) by lia.
    unfold bind, lift, ret, Playing.maxDirection. cbv beta iota.
    rewrite (@checked_int_Some (Z.abs (Z.max (direction - 1) (- (3))))%Z) by lia.
    cbv beta iota.
    destruct (@angles_at (Z.abs (Z.max (direction - 1) (- (3))))%Z ltac:(lia))
      as (a & E & _).
    rewrite E. eexists _, _. split; [reflexivity|]. split; [reflexivity|].
    exists a. split; [|reflexivity].
    rewrite <- E. f_equal. lia.
  - unfold bind, lift, ret, Playing.maxDirection. cbv beta iota.
    rewrite (@checked_int_Some (direction + 1)%Z) by lia.
    cbv beta iota.
    rewrite (@checked_int_Some (Z.abs (Z.min (direction + 1) 3))%Z) by lia.
    cbv beta iota.
    destruct (@angles_at (Z.abs (Z.min (direction + 1) 3))%Z ltac:(lia))
      as (a & E & _).
    rewrite E. eexists _, _. split; [reflexivity|]. split; [reflexivity|].
    exists a. split; [|reflexivity].
    rewrite <- E. f_equal. lia.
  - eexists _, _. split; [reflexivity|]. split; reflexivity.
Qed.

End Steering.

(** X11.  With [direction] between -3 and 3, the key handling of
    [Playing::update] returns (no [int] overflows, [angles.at] does not
    throw) and keeps [direction] between -3 and 3, changing it by at most
    1: the left key alone lowers it down to -3, the right key alone raises
    it up to 3, and with both keys down, or none, [direction] and
    [targetAngle] stay as they are.  No random number is drawn. *)
Theorem X11_steering D (ops : Double D) (Pi : D) inp direction targetAngle k :
  (-3 <= direction <= 3)%Z ->
  exists direction' targetAngle',
    Playing.steer Pi inp direction targetAngle k
    = Ok (direction', targetAngle') k /\
    (-3 <= direction' <= 3)%Z /\
    (Z.abs (direction' - direction) <= 1)%Z /\
    (Playing.keyLeft inp = Playing.keyRight inp ->
     direction' = direction /\ targetAngle' = targetAngle) /\
    (Playing.keyLeft inp = true -> Playing.keyRight inp = false ->
     direction' = Z.max (direction - 1) (-3)) /\
    (Playing.keyLeft inp = false -> Playing.keyRight inp = true ->
     direction' = Z.min (direction + 1) 3).
Proof.
  intros R.
  destruct (@steer_Ok _ _ Pi inp direction targetAngle k R)
    as (d' & ta' & E & Ed & Ea).
  exists d', ta'. split; [exact E|].
  destruct (Playing.keyLeft inp), (Playing.keyRight inp); cbn [xorb] in *;
    subst d'; repeat split; try lia; try discriminate; try assumption;
    intros; try discriminate; reflexivity.
Qed.

Lemma X11_steering_witness :
  exists direction' targetAngle',
    Playing.steer (dec 3.141592653589793)
      {| KeyLeft := true; KeyRight := false;
         Key_Keyboard := fun _ => false; gamepad := None |}
      (-3) (dec 0.0 : float) 0
    = Ok (direction', targetAngle') 0 /\
    (-3 <= direction' <= 3)%Z /\
    (Z.abs (direction' - -3) <= 1)%Z /\
    (true = false -> direction' = (-3)%Z /\ targetAngle' = dec 0.0) /\
    (true = true -> false = false -> direction' = Z.max (-3 - 1) (-3)) /\
    (true = false -> false = true -> direction' = Z.min (-3 + 1) 3).
Proof.
  apply (@X11_steering float _ (dec 3.141592653589793)
           {| KeyLeft := true; KeyRight := false;
              Key_Keyboard := fun _ => false; gamepad := None |}
           (-3)%Z (dec 0.0) 0).
  lia.
Defined.

(** ** One frame of the game, lines 221-258 *)

Section Frame.
Context {D : Type} `{Double D}.
Variable rnd : Oracle D.
Variables sin cos : D -> D.
Variable Pi : D.
Open Scope double_scope.

Lemma steer_counter inp direction targetAngle k r k' :
  Playing.steer Pi inp direction targetAngle k = Ok r k' -> k' = k.
Proof.
  unfold Playing.steer.
  destruct (xorb (Playing.keyLeft inp) (Playing.keyRight inp)).
  - intros E. inv_run.
    destruct (Playing.keyLeft inp), (Playing.keyRight inp); inv_run;
      reflexivity.
  - intros E. inv_run. reflexivity.
Qed.

Lemma update_Ok_frame inp s k s' sc k' :
  Playing.update rnd sin cos Pi inp s k = Ok (s', sc) k' ->
  exists direction' targetAngle',
    Playing.steer Pi inp (Playing.direction s) (Playing.targetAngle s) k
    = Ok (direction', targetAngle') k /\
    let d := Playing.data s in
    let playerAngle' :=
      Data.playerAngle d + dec 0.1 * (targetAngle' - Data.playerAngle d) in
    let speed := dec 5e-5 * Level.getMileage (Data.level d) + dec 5e-3 in
    let playerPosX' := Data.playerPosX d + sin playerAngle' * speed in
    Playing.direction s' = direction' /\
    Playing.targetAngle s' = targetAngle' /\
    Data.playerAngle (Playing.data s') = playerAngle' /\
    Data.playerPosX (Playing.data s') = playerPosX' /\
    ((Level.hit (Data.level d) playerPosX' = true /\
      sc = Some Scene.GameOver /\
      Data.level (Playing.data s') = Data.level d /\
      Data.highScore (Playing.data s') = Data.highScore d /\
      Data.sw_running (Playing.data s') = false /\
      k' = k) \/
     (Level.hit (Data.level d) playerPosX' = false /\
      sc = None /\
      Level.update rnd (cos playerAngle' * speed) (Data.level d) k
      = Ok (Data.level (Playing.data s')) k' /\
      Data.sw_running (Playing.data s') = Data.sw_running d /\
      exists score,
        getScore (Data.level (Playing.data s')) = Some score /\
        Data.highScore (Playing.data s') = Z.max score (Data.highScore d))).
Proof.
  unfold Playing.update. intros E. inv_run.
  destruct a as [direction' targetAngle'].
  pose proof (steer_counter _ _ _ _ E0) as ->.
  exists direction', targetAngle'. split; [exact E0|]. cbv zeta.
  match type of E1 with
  | (if ?c then _ else _) _ = _ => destruct c eqn:Hit
  end.
  - unfold ret in E1. injection E1 as <- <- <-.
    cbn [Playing.data Playing.direction Playing.targetAngle Data.level
         Data.highScore Data.playerPosX Data.playerAngle Data.sw_running].
    repeat split. left. repeat split.
  - inv_run. unfold ret in E3. injection E3 as <- <- <-.
    cbn [Playing.data Playing.direction Playing.targetAngle Data.level
         Data.highScore Data.playerPosX Data.playerAngle Data.sw_running].
    repeat split. right. repeat split; try assumption.
    exists a0. split; [assumption | reflexivity].
Qed.

End Frame.

(** X12.  One frame of [Playing::update] asks for a change of scene
    exactly when the level, as it was before the frame, is hit at the new
    position of the token, and then for [GameOver], never for another
    scene.  In that case the level and the high score stay as they were, no
    random number is drawn and the stopwatch is paused.  Otherwise the
    level makes one [update] and the stopwatch is left alone. *)
Theorem X12_collision_ends_game D (ops : Double D) (rnd : Oracle D)
    (sin cos : D -> D) (Pi : D) inp s k s' sc k' :
  Playing.update rnd sin cos Pi inp s k = Ok (s', sc) k' ->
  (sc = Some Scene.GameOver \/ sc = None) /\
  (sc = Some Scene.GameOver <->
   Level.hit (Data.level (Playing.data s))
     (Data.playerPosX (Playing.data s')) = true) /\
  (sc = Some Scene.GameOver ->
   Data.level (Playing.data s') = Data.level (Playing.data s) /\
   Data.highScore (Playing.data s') = Data.highScore (Playing.data s) /\
   Data.sw_running (Playing.data s') = false /\
   k' = k) /\
  (sc = None ->
   (exists speedY,
      Level.update rnd speedY (Data.level (Playing.data s)) k
      = Ok (Data.level (Playing.data s')) k') /\
   Data.sw_running (Playing.data s') = Data.sw_running (Playing.data s)).
Proof.
  intros E. apply update_Ok_frame in E.
  destruct E as (d' & ta' & _ & _ & _ & _ & -> & C). cbv zeta in C.
  destruct C as [(Hit & -> & L & S & W & K) | (Hit & -> & U & W & _)].
  - split; [left; reflexivity|]. split; [tauto|].
    split; [intros _; repeat split; assumption | discriminate].
  - split; [right; reflexivity|]. split.
    + split; [discriminate | rewrite Hit; discriminate].
    + split; [discriminate|]. intros _. split; [|exact W].
      eexists. exact U.
Qed.

Lemma X12_collision_ends_game_witness :
  exists s' sc k',
    Playing.update rndQ sin_at_0 cos_at_0 3.141592653589793%Q no_keys crashQ 4
    = Ok (s', sc) k' /\
    sc = Some Scene.GameOver /\
    Data.level (Playing.data s') = deepQ /\ k' = 4.
Proof.
  eexists _, _, _. split; [reflexivity|].
  pose proof (@X12_collision_ends_game Q _ rndQ sin_at_0 cos_at_0
                3.141592653589793%Q no_keys crashQ 4 _ _ _ eq_refl) as X.
  split; [reflexivity|].
  destruct X as (_ & _ & X & _). destruct (X eq_refl) as (L & _ & _ & K).
  split; [exact L | exact K].
Defined.

(** X13.  A frame of [Playing::update] never lowers the high score.  After
    a frame without collision the high score is the larger of the score of
    the updated level and the high score before, so it is at least the
    score; and a high score that is at least the score stays so in every
    frame. *)
Theorem X13_high_score D (ops : Double D) (rnd : Oracle D)
    (sin cos : D -> D) (Pi : D) inp s k s' sc k' :
  Playing.update rnd sin cos Pi inp s k = Ok (s', sc) k' ->
  (Data.highScore (Playing.data s) <= Data.highScore (Playing.data s'))%Z /\
  (sc = None ->
   exists score,
     getScore (Data.level (Playing.data s')) = Some score /\
     Data.highScore (Playing.data s')
     = Z.max score (Data.highScore (Playing.data s))) /\
  ((forall z, getScore (Data.level (Playing.data s)) = Some z ->
              (z <= Data.highScore (Playing.data s))%Z) ->
   forall z, getScore (Data.level (Playing.data s')) = Some z ->
             (z <= Data.highScore (Playing.data s'))%Z).
Proof.
  intros E. apply update_Ok_frame in E.
  destruct E as (d' & ta' & _ & _ & _ & _ & _ & C). cbv zeta in C.
  destruct C as [(_ & -> & L & S & _) | (_ & -> & _ & _ & sco & G & S)].
  - rewrite L, S. split; [lia|]. split; [discriminate|]. intros I. exact I.
  - rewrite S. split; [lia|]. split.
    + intros _. exists sco. split; [exact G | reflexivity].
    + intros _ z Gz. rewrite G in Gz. injection Gz as <-. lia.
Qed.

Lemma X13_high_score_witness :
  exists s' sc k',
    Playing.update rnd64 sin_at_0 cos_at_0 (dec 3.141592653589793)
      no_keys start64 4 = Ok (s', sc) k' /\
    Data.level (Playing.data s') = tick64 /\
    (Data.highScore (Playing.data start64)
     <= Data.highScore (Playing.data s'))%Z.
Proof.
  eexists _, _, _. split; [vm_compute; reflexivity|].
  split; [vm_compute; reflexivity|].
  refine (proj1 (@X13_high_score float _ rnd64 sin_at_0 cos_at_0
                   (dec 3.141592653589793) no_keys start64 4 _ _ _ _)).
  vm_compute. reflexivity.
Defined.

(** ** [Data::anyKeyIsDown] *)

Section AnyKey.
Variable codes : KeyCodes.
Variable inp : Input.
Local Open Scope Z_scope.

Lemma scan_keys_ends (fuel : nat) : forall i,
  0 <= i -> KeyBackslash_JP codes < 255 ->
  (Z.to_nat (KeyBackslash_JP codes - i + 1) <= fuel)%nat ->
  exists r,
    Data.scan_keys codes inp fuel i = Some r /\
    (r = true <->
     exists j, i <= j <= KeyBackslash_JP codes /\ Key_Keyboard inp j = true).
Proof.
  induction fuel as [|fuel IH]; intros i I U F; cbn [Data.scan_keys];
    destruct (Z.leb_spec i (KeyBackslash_JP codes)) as [L | L]; try lia.
  - exists false. split; [reflexivity|]. split; [discriminate|].
    intros (j & R & _). lia.
  - destruct (Key_Keyboard inp i) eqn:K.
    + exists true. split; [reflexivity|]. split; [|reflexivity].
      intros _. exists i. split; [lia | exact K].
    + rewrite Z.mod_small by lia.
      destruct (IH (i + 1) ltac:(lia) U ltac:(lia)) as (r & E & R).
      exists r. split; [exact E|]. rewrite R. split.
      * intros (j & B & Kj). exists j. split; [lia | exact Kj].
      * intros (j & B & Kj). exists j. split; [|exact Kj].
        assert (j <> i) by (intros ->; congruence). lia.
  - exists false. split; [reflexivity|]. split; [discriminate|].
    intros (j & R & _). lia.
Qed.

Lemma scan_keys_loops (fuel : nat) : forall i,
  KeyBackslash_JP codes = 255 ->
  (forall j, 0 <= j <= 255 -> Key_Keyboard inp j = false) ->
  0 <= i <= 255 ->
  Data.scan_keys codes inp fuel i = None.
Proof.
  induction fuel as [|fuel IH]; intros i U N I; cbn [Data.scan_keys];
    destruct (Z.leb_spec i (KeyBackslash_JP codes)) as [L | L]; try lia;
    rewrite (N i I); [reflexivity|].
  apply IH; try assumption.
  pose proof (Z.mod_pos_bound (i + 1) 256 ltac:(lia)). lia.
Qed.

Lemma gamepad_down (gp : Gamepad) :
  (if povLeft gp || povRight gp || povUp gp || povDown gp then true
   else existsb (fun button => button) (buttons gp)) = true <->
  povLeft gp = true \/ povRight gp = true \/ povUp gp = true \/
  povDown gp = true \/ In true (buttons gp).
Proof.
  destruct (povLeft gp), (povRight gp), (povUp gp), (povDown gp);
    cbn [orb]; try (split; [tauto | reflexivity]).
  rewrite existsb_exists. split.
  - intros (b & I & ->). tauto.
  - intros [X | [X | [X | [X | X]]]]; try discriminate X.
    exists true. split; [exact X | reflexivity].
Qed.

End AnyKey.

(** X15.  The key codes are [uint8] values.  If [KeyBackslash_JP.code()]
    is below 255, [anyKeyIsDown] returns, and returns true exactly when a
    keyboard key with a code from [KeyCancel.code()] to
    [KeyBackslash_JP.code()] is down, or there is a gamepad and one of its
    four directions or one of its buttons is down; [Title::update] and
    [GameOver::update] then ask for the scene [Playing], and for no scene
    otherwise.  If the upper code were 255, the loop counter would wrap to
    0 and, with no key down, the loop would never end. *)
Theorem X15_anyKeyIsDown (codes : KeyCodes) (inp : Input) :
  (0 <= KeyCancel codes <= 255)%Z ->
  ((KeyBackslash_JP codes < 255)%Z ->
   forall fuel, 256 <= fuel ->
   exists r,
     Data.anyKeyIsDown codes inp fuel = Some r /\
     (r = true <->
      (exists j, (KeyCancel codes <= j <= KeyBackslash_JP codes)%Z /\
                 Key_Keyboard inp j = true) \/
      (exists gp, gamepad inp = Some gp /\
                  (povLeft gp = true \/ povRight gp = true \/
                   povUp gp = true \/ povDown gp = true \/
                   In true (buttons gp)))) /\
     Title.update codes inp fuel
     = Some (if r then Some Scene.Playing else None) /\
     GameOver.update codes inp fuel
     = Some (if r then Some Scene.Playing else None)) /\
  (KeyBackslash_JP codes = 255%Z ->
   (forall j, (0 <= j <= 255)%Z -> Key_Keyboard inp j = false) ->
   forall fuel, Data.anyKeyIsDown codes inp fuel = None).
Proof.
  intros C. split.
  - intros U fuel F.
    destruct (@scan_keys_ends codes inp fuel (KeyCancel codes)
                ltac:(lia) U ltac:(lia)) as (r0 & E & R).
    unfold Title.update, GameOver.update, Data.anyKeyIsDown. rewrite E.
    destruct r0.
    + exists true. split; [reflexivity|]. split; [|split; reflexivity].
      split; [|reflexivity]. intros _. left. apply R. reflexivity.
    + assert (~ exists j, (KeyCancel codes <= j <= KeyBackslash_JP codes)%Z /\
                          Key_Keyboard inp j = true) as N.
      { intros X. apply R in X. discriminate X. }
      destruct (gamepad inp) as [gp|].
      * pose proof (gamepad_down gp) as G.
        destruct (povLeft gp || povRight gp || povUp gp || povDown gp).
        -- exists true. split; [reflexivity|]. split; [|split; reflexivity].
           split; [|reflexivity]. intros _. right. exists gp.
           split; [reflexivity|]. apply G. reflexivity.
        -- exists (existsb (fun button => button) (buttons gp)).
           split; [reflexivity|].
           split; [|split; destruct (existsb _ _); reflexivity].
           rewrite G. split.
           ++ intros X. right. exists gp. split; [reflexivity | exact X].
           ++ intros [X | (gp' & Eg & X)]; [contradiction|].
              injection Eg as <-. exact X.
      * exists false. split; [reflexivity|]. split; [|split; reflexivity].
        split; [discriminate|].
        intros [X | (gp' & Eg & _)]; [contradiction | discriminate Eg].
  - intros U N fuel. unfold Data.anyKeyIsDown.
    rewrite (@scan_keys_loops codes inp fuel (KeyCancel codes) U N C).
    reflexivity.
Qed.

Lemma X15_anyKeyIsDown_witness :
  exists r,
    Data.anyKeyIsDown sample_codes left_key 256 = Some r /\
    (r = true <->
     (exists j, (3 <= j <= 226)%Z /\ Key_Keyboard left_key j = true) \/
     (exists gp, gamepad left_key = Some gp /\
                 (povLeft gp = true \/ povRight gp = true \/
                  povUp gp = true \/ povDown gp = true \/
                  In true (buttons gp)))) /\
    Title.update sample_codes left_key 256
    = Some (if r then Some Scene.Playing else None) /\
    GameOver.update sample_codes left_key 256
    = Some (if r then Some Scene.Playing else None).
Proof.
  apply (proj1 (@X15_anyKeyIsDown sample_codes left_key ltac:(cbn; lia))).
  - cbn. lia.
  - lia.
Defined.

(** ** When a frame fails *)

(** X16.  With [direction] between -3 and 3, a level of at least two
    barriers and [Random(0, 2)] in its range, a frame of [Playing::update]
    returns, unless the score of the updated level is not an [int]: the
    key handling returns; on a collision the frame returns with
    [GameOver]; otherwise [Level::update] returns, and the frame returns if
    [getScore] of the updated level is defined and is undefined if it is
    not: the conversion [static_cast<int>] is the only operation of the
    frame that can be undefined. *)
Theorem X16_frame_returns D (ops : Double D) (rnd : Oracle D)
    (sin cos : D -> D) (Pi : D) inp s k :
  (forall j, (0 <= Random_int rnd j <= 2)%Z) ->
  2 <= length (Level.barriers (Data.level (Playing.data s))) ->
  (-3 <= Playing.direction s <= 3)%Z ->
  exists direction' targetAngle',
    Playing.steer Pi inp (Playing.direction s) (Playing.targetAngle s) k
    = Ok (direction', targetAngle') k /\
    let d := Playing.data s in
    let playerAngle' :=
      (Data.playerAngle d + dec 0.1 * (targetAngle' - Data.playerAngle d))%dbl in
    let speed :=
      (dec 5e-5 * Level.getMileage (Data.level d) + dec 5e-3)%dbl in
    let playerPosX' := (Data.playerPosX d + sin playerAngle' * speed)%dbl in
    if Level.hit (Data.level d) playerPosX' then
      exists s',
        Playing.update rnd sin cos Pi inp s k = Ok (s', Some Scene.GameOver) k
    else
      exists l' k',
        Level.update rnd (cos playerAngle' * speed)%dbl (Data.level d) k
        = Ok l' k' /\
        match getScore l' with
        | Some _ =>
            exists s', Playing.update rnd sin cos Pi inp s k = Ok (s', None) k'
        | None => Playing.update rnd sin cos Pi inp s k = Fault
        end.
Proof.
  intros R L B.
  destruct (@steer_Ok _ _ Pi inp (Playing.direction s) (Playing.targetAngle s)
              k B) as (d' & ta' & E & _).
  exists d', ta'. split; [exact E|]. cbv zeta.
  match goal with
  | |- context [Level.hit ?l ?x] => destruct (Level.hit l x) eqn:Hit
  end.
  - eexists. unfold Playing.update, bind. rewrite E. cbv beta iota zeta.
    rewrite Hit. reflexivity.
  - match goal with
    | |- context [Level.update rnd ?v ?l] =>
        destruct (@update_total _ _ rnd R v l k L) as (l' & k' & U)
    end.
    exists l', k'. split; [exact U|].
    destruct (getScore l') as [score|] eqn:G.
    + eexists. unfold Playing.update, bind. rewrite E. cbv beta iota zeta.
      rewrite Hit, U. cbv beta iota. unfold lift. rewrite G. reflexivity.
    + unfold Playing.update, bind. rewrite E. cbv beta iota zeta.
      rewrite Hit, U. cbv beta iota. unfold lift. rewrite G. reflexivity.
Qed.

Lemma X16_frame_returns_witness :
  exists direction' targetAngle',
    Playing.steer (dec 3.141592653589793) no_keys
      (Playing.direction start64) (Playing.targetAngle start64) 4
    = Ok (direction', targetAngle') 4 /\
    let d := Playing.data start64 in
    let playerAngle' :=
      (Data.playerAngle d + dec 0.1 * (targetAngle' - Data.playerAngle d))%dbl in
    let speed :=
      (dec 5e-5 * Level.getMileage (Data.level d) + dec 5e-3)%dbl in
    let playerPosX' :=
      (Data.playerPosX d + sin_at_0 playerAngle' * speed)%dbl in
    if Level.hit (Data.level d) playerPosX' then
      exists s',
        Playing.update rnd64 sin_at_0 cos_at_0 (dec 3.141592653589793)
          no_keys start64 4 = Ok (s', Some Scene.GameOver) 4
    else
      exists l' k',
        Level.update rnd64 (cos_at_0 playerAngle' * speed)%dbl (Data.level d) 4
        = Ok l' k' /\
        match getScore l' with
        | Some _ =>
            exists s',
              Playing.update rnd64 sin_at_0 cos_at_0 (dec 3.141592653589793)
                no_keys start64 4 = Ok (s', None) k'
        | None =>
            Playing.update rnd64 sin_at_0 cos_at_0 (dec 3.141592653589793)
              no_keys start64 4 = Fault
        end.
Proof.
  apply (@X16_frame_returns float _ rnd64 sin_at_0 cos_at_0
           (dec 3.141592653589793) no_keys start64 4).
  - intros j. cbn. lia.
  - cbn. lia.
  - cbn. lia.
Defined.

(** ** The two builds of [Barrier::hit] *)

Lemma hit_build2_solid D `{Double D} (b : Barrier.t D) x :
  Barrier.hit_build2 b x
  = solid b x && ((Barrier.yPos b <? playerPosY)
                  && (playerPosY <? Barrier.yPos b + Barrier.height b))%dbl.
Proof.
  unfold Barrier.hit_build2, solid.
  destruct (Barrier.type b);
    match goal with |- (if ?c then _ else _) = _ => destruct c end;
    reflexivity.
Qed.

Lemma b64_leb_cases (x y : float) :
  (x <=? y)%float = (x <? y)%float || (x =? y)%float.
Proof.
  rewrite leb_spec, ltb_spec, eqb_spec. unfold SFleb, SFltb, SFeqb.
  destruct (SFcompare (Prim2SF x) (Prim2SF y)) as [[| |]|]; reflexivity.
Qed.

Lemma exact_leb_cases (x y : Q) :
  (x <=? y)%dbl = (x <? y)%dbl || (x ==? y)%dbl.
Proof.
  cbn [dleb dltb deqb exact].
  destruct (Qle_bool x y) eqn:L, (Qle_bool y x) eqn:U, (Qeq_bool x y) eqn:E;
    try reflexivity; exfalso;
    repeat match goal with
    | X : Qle_bool _ _ = true |- _ => apply Qle_bool_iff in X
    | X : Qle_bool _ _ = false |- _ =>
        apply not_true_iff_false in X; rewrite Qle_bool_iff in X
    | X : Qeq_bool _ _ = true |- _ => apply Qeq_bool_iff in X
    | X : Qeq_bool _ _ = false |- _ => apply Qeq_bool_neq in X
    end; lra.
Qed.

Section Builds.
Context {D : Type} `{Double D}.
Open Scope double_scope.
Hypothesis leb_cases : forall x y : D, (x <=? y) = (x <? y) || (x ==? y).

Lemma builds_differ_at_edges (b : Barrier.t D) (x : D) :
  (Barrier.hit_build2 b x = true -> Barrier.hit b x = true) /\
  (Barrier.hit b x = true -> Barrier.hit_build2 b x = false ->
   (Barrier.yPos b ==? playerPosY) = true \/
   (playerPosY ==? Barrier.yPos b + Barrier.height b) = true).
Proof.
  rewrite hit_build2_solid, Barrier_hit_solid. unfold overlaps.
  rewrite !leb_cases.
  destruct (solid b x), (Barrier.yPos b <? playerPosY),
    (playerPosY <? Barrier.yPos b + Barrier.height b),
    (Barrier.yPos b ==? playerPosY),
    (playerPosY ==? Barrier.yPos b + Barrier.height b); cbn;
    split; intros; try discriminate; try reflexivity; tauto.
Qed.

End Builds.

(** X17.  The second build of the program compares the height of the
    token with the band of a barrier strictly.  In the arithmetic of the
    program and in exact arithmetic, whatever the second build's
    [Barrier::hit] reports, the first build's reports too; and where only
    the first reports a hit, the token is exactly level with the upper or
    the lower edge of the barrier. *)
Theorem X17_builds_differ_at_edges :
  (forall (b : Barrier.t float) x,
     (Barrier.hit_build2 b x = true -> Barrier.hit b x = true) /\
     (Barrier.hit b x = true -> Barrier.hit_build2 b x = false ->
      (Barrier.yPos b ==? playerPosY)%dbl = true \/
      (playerPosY ==? Barrier.yPos b + Barrier.height b)%dbl = true)) /\
  (forall (b : Barrier.t Q) x,
     (Barrier.hit_build2 b x = true -> Barrier.hit b x = true) /\
     (Barrier.hit b x = true -> Barrier.hit_build2 b x = false ->
      (Barrier.yPos b ==? playerPosY)%dbl = true \/
      (playerPosY ==? Barrier.yPos b + Barrier.height b)%dbl = true)).
Proof.
  split.
  - apply builds_differ_at_edges. exact b64_leb_cases.
  - apply builds_differ_at_edges. exact exact_leb_cases.
Qed.

Lemma X17_builds_differ_at_edges_witness :
  Barrier.hit slit64 (dec 0.2) = true.
Proof.
  apply (proj1 (proj1 X17_builds_differ_at_edges slit64 (dec 0.2))).
  vm_compute. reflexivity.
Defined.

(** ** [update] needs barriers *)

(** X21.  In every arithmetic of [double]: [update] on a level without
    barriers is undefined ([front()] of an empty deque), and so is
    [update] on a level whose only barrier is no longer visible after the
    step ([back()] of the deque that [pop_front] has emptied, in
    [addBarrier]).  If the front barrier is visible after the step,
    [update] only moves the barriers and adds to the mileage, and draws no
    random number. *)
Theorem X21_update_needs_barriers D (ops : Double D) (rnd : Oracle D)
    (speedY : D) :
  (forall m k, Level.update rnd speedY (Level.Build [] m) k = Fault) /\
  (forall b m k,
     Barrier.isVisible (shift speedY b) = false ->
     Level.update rnd speedY (Level.Build [b] m) k = Fault) /\
  (forall b q m k,
     Barrier.isVisible (shift speedY b) = true ->
     Level.update rnd speedY (Level.Build (b :: q) m) k
     = Ok (Level.Build (map (shift speedY) (b :: q)) (m + speedY)%dbl) k).
Proof.
  split; [|split].
  - intros m k. reflexivity.
  - intros b m k V. unfold Level.update. cbn [Level.barriers map front hd_error].
    unfold bind at 1. cbn [lift]. unfold ret at 1.
    change (Barrier.Build (Barrier.type b) (Barrier.leftToHole b)
              (Barrier.height b) (Barrier.yPos b - speedY)%dbl)
      with (shift speedY b).
    rewrite V. reflexivity.
  - intros b q m k V. unfold Level.update. cbn [Level.barriers map front hd_error].
    unfold bind at 1. cbn [lift]. unfold ret at 1.
    change (Barrier.Build (Barrier.type b) (Barrier.leftToHole b)
              (Barrier.height b) (Barrier.yPos b - speedY)%dbl)
      with (shift speedY b).
    rewrite V. reflexivity.
Qed.

Lemma X21_update_needs_barriers_witness :
  Level.update rnd64 (dec 0.5) (Level.Build [slit64] (dec 0.0)) 0 = Fault.
Proof.
  apply (proj1 (proj2 (@X21_update_needs_barriers float _ rnd64 (dec 0.5)))).
  vm_compute. reflexivity.
Defined.

(** ** The score file *)

(** X22.  The high score survives from one run of [Main] to the next: for
    every [int], what [Main] loads from the file that [Main] has written is
    the high score written.  The file written holds four bytes.  Without a
    file, and with a file of fewer than four bytes, the high score starts
    at 0. *)
Theorem X22_score_file :
  (forall highScore,
     in_int_range highScore = true ->
     Main.load (Main.save highScore) = highScore) /\
  (forall highScore,
     exists b0 b1 b2 b3,
       Main.save highScore = Some [b0; b1; b2; b3] /\
       Forall (fun b => 0 <= b < 256)%Z [b0; b1; b2; b3]) /\
  Main.load None = 0%Z /\
  (forall bytes, length bytes < 4 -> Main.load (Some bytes) = 0%Z).
Proof.
  split; [|split; [|split]].
  - intros h R. unfold in_int_range, INT_MIN, INT_MAX in R.
    apply andb_true_iff in R. destruct R as [L U].
    apply Z.leb_le in L, U.
    unfold Main.save, Main.load, Main.bytes_of_int, Main.int_of_bytes.
    cbv zeta.
    assert (h mod 256 + 256 * ((h / 256) mod 256)
            + 65536 * ((h / 65536) mod 256)
            + 16777216 * ((h / 16777216) mod 256)
            = h mod 2 ^ 32)%Z as ->.
    { change (2 ^ 32)%Z with 4294967296%Z. Z.div_mod_to_equations. lia. }
    change (2 ^ 32)%Z with 4294967296%Z in *.
    change (2 ^ 31)%Z with 2147483648%Z in *.
    destruct (Z.ltb_spec (h mod 4294967296) 2147483648);
      Z.div_mod_to_equations; lia.
  - intros h. eexists _, _, _, _. split; [reflexivity|].
    repeat constructor; apply Z.mod_pos_bound; lia.
  - reflexivity.
  - intros bytes L.
    destruct bytes as [|b0 [|b1 [|b2 [|b3 q]]]]; cbn in L; try lia;
      reflexivity.
Qed.

Lemma X22_score_file_witness : Main.load (Main.save (-7)) = (-7)%Z.
Proof. apply (proj1 X22_score_file). reflexivity. Defined.

(** ** The beginning of a game *)


